(** * Wordlister: candidate generation, chunking and input validation

    A shallow embedding of [wordlister.py] (the multi-worker generator with
    sampled leet substitution) and [wordlister_strong.py] (the cooperative
    generator with full per-position substitution), and the properties of
    the candidate sets they build.

    Python strings are modelled as [string] over 8-bit characters; the case
    maps act on the ASCII letters and leave every other character unchanged,
    which is what [str.lower], [str.upper], [str.title] and [str.capitalize]
    do on ASCII input.  Python sets are [gset string]; dictionaries that are
    only looked up are [gmap]; the dictionary that is iterated in insertion
    order is an association list. *)

From Stdlib Require Import Ascii ZArith.
From Stdlib Require String.
From stdpp Require Import gmap strings list sets fin_sets.

Local Open Scope Z_scope.
Local Open Scope nat_scope.

(** ** Python's [str] methods used by the two programs *)
Module PyStr.

Definition is_upper (c : ascii) : bool :=
  let n := nat_of_ascii c in (65 <=? n) && (n <=? 90).

Definition is_lower (c : ascii) : bool :=
  let n := nat_of_ascii c in (97 <=? n) && (n <=? 122).

Definition is_digit (c : ascii) : bool :=
  let n := nat_of_ascii c in (48 <=? n) && (n <=? 57).

Definition is_cased (c : ascii) : bool := is_upper c || is_lower c.

(** [str.isspace] on one character: tab, newline, vertical tab, form feed,
    carriage return, the four separators 0x1c..0x1f and the space. *)
Definition is_space (c : ascii) : bool :=
  let n := nat_of_ascii c in
  ((9 <=? n) && (n <=? 13)) || ((28 <=? n) && (n <=? 31)) || (n =? 32).

Definition char_lower (c : ascii) : ascii :=
  if is_upper c then ascii_of_nat (nat_of_ascii c + 32) else c.

Definition char_upper (c : ascii) : ascii :=
  if is_lower c then ascii_of_nat (nat_of_ascii c - 32) else c.

Fixpoint map_chars (f : ascii → ascii) (s : string) : string :=
  match s with
  | EmptyString => EmptyString
  | String c r => String (f c) (map_chars f r)
  end.

Fixpoint all_chars (p : ascii → bool) (s : string) : bool :=
  match s with
  | EmptyString => true
  | String c r => p c && all_chars p r
  end.

Fixpoint chars (s : string) : list ascii :=
  match s with
  | EmptyString => []
  | String c r => c :: chars r
  end.

(** [s.lower()] and [s.upper()] *)
Definition lower (s : string) : string := map_chars char_lower s.
Definition upper (s : string) : string := map_chars char_upper s.

(** [s.capitalize()]: first character upper-cased, the rest lower-cased. *)
Definition capitalize (s : string) : string :=
  match s with
  | EmptyString => EmptyString
  | String c r => String (char_upper c) (lower r)
  end.

(** [s.title()]: a cased character that follows an uncased one (or starts
    the string) is upper-cased, every other one is lower-cased. *)
Fixpoint title_go (prev_cased : bool) (s : string) : string :=
  match s with
  | EmptyString => EmptyString
  | String c r =>
      String (if prev_cased then char_lower c else char_upper c)
             (title_go (is_cased c) r)
  end.

Definition title (s : string) : string := title_go false s.

(** [s.isdigit()]: non-empty and made of digits only. *)
Definition isdigit (s : string) : bool :=
  match s with
  | EmptyString => false
  | String _ _ => all_chars is_digit s
  end.

(** [len(s)] *)
Definition len (s : string) : nat := String.length s.

(** [sub in s] *)
Fixpoint contains (sub s : string) : bool :=
  String.prefix sub s ||
  match s with
  | EmptyString => false
  | String _ r => contains sub r
  end.

(** [s.replace(old, new)] for a non-empty [old]: the occurrences are found
    from the left and do not overlap.  [skip] counts the characters of the
    occurrence being replaced that are still to be dropped.  The programs
    never replace the empty string, which [replace] leaves alone. *)
Fixpoint replace_go (old new : string) (skip : nat) (s : string) : string :=
  match s with
  | EmptyString => EmptyString
  | String c r =>
      match skip with
      | S k => replace_go old new k r
      | O =>
          if String.prefix old s
          then new +:+ replace_go old new (String.length old - 1) r
          else String c (replace_go old new 0 r)
      end
  end.

Definition replace (old new s : string) : string :=
  match old with
  | EmptyString => s
  | String _ _ => replace_go old new 0 s
  end.

(** [s.lstrip()], [s.rstrip()] and [s.strip()] *)
Fixpoint lstrip (s : string) : string :=
  match s with
  | EmptyString => EmptyString
  | String c r => if is_space c then lstrip r else s
  end.

Fixpoint rstrip (s : string) : string :=
  match s with
  | EmptyString => EmptyString
  | String c r =>
      match rstrip r with
      | EmptyString => if is_space c then EmptyString else String c EmptyString
      | r' => String c r'
      end
  end.

Definition strip (s : string) : string := rstrip (lstrip s).

(** [s.split(sep)] for a non-empty [sep]: [cur] holds the characters of the
    field being read, in reverse. *)
Fixpoint split_go (sep : string) (skip : nat) (cur : string) (s : string)
  : list string :=
  match s with
  | EmptyString => [String.rev cur]
  | String c r =>
      match skip with
      | S k => split_go sep k cur r
      | O =>
          if String.prefix sep s
          then String.rev cur :: split_go sep (String.length sep - 1) EmptyString r
          else split_go sep 0 (String c cur) r
      end
  end.

Definition split (sep s : string) : list string := split_go sep 0 EmptyString s.

(** [s.split()]: the maximal runs of characters that are not white space. *)
Fixpoint split_ws_go (cur : option string) (s : string) : list string :=
  match s with
  | EmptyString => option_list (String.rev <$> cur)
  | String c r =>
      if is_space c
      then option_list (String.rev <$> cur) ++ split_ws_go None r
      else split_ws_go (Some (String c (default EmptyString cur))) r
  end.

Definition split_ws (s : string) : list string := split_ws_go None s.

(** [sep.join(parts)] *)
Fixpoint join (sep : string) (parts : list string) : string :=
  match parts with
  | [] => EmptyString
  | [p] => p
  | p :: ps => p +:+ sep +:+ join sep ps
  end.

(** [bool(s)]: a string is true when it is not empty. *)
Definition truthy (s : string) : bool :=
  match s with EmptyString => false | String _ _ => true end.

End PyStr.

(** ** Python's list helpers *)
Module PyList.

(** [l[i:j]] for non-negative bounds: out-of-range bounds are clamped. *)
Definition slice {A} (i j : nat) (l : list A) : list A := take (j - i) (drop i l).

(** [range(start, stop, step)] for a positive [step]. *)
Definition range (start stop step : nat) : list nat :=
  (λ k, start + k * step) <$> seq 0 ((stop - start + (step - 1)) / step).

(** [itertools.product] applied to the pools: the first pool varies slowest. *)
Fixpoint product {A} (pools : list (list A)) : list (list A) :=
  match pools with
  | [] => [[]]
  | p :: ps => x ← p; (cons x) <$> product ps
  end.

End PyList.

(** What one press of the start button does, as far as the caller can see:
    an error notification, whether the output destination was opened, and
    the lines written by a run that is not cancelled. *)
Record run_report := RunReport {
  error_reported : option string;
  output_opened : bool;
  lines_written : list string
}.

(** ** [wordlister.py]: sampled substitution, chunked multi-worker pipeline *)
Module Wordlister.
Import PyStr PyList.

(** [PasswordGenerator.LEET_MAP], in insertion order. *)
Definition LEET_MAP : list (string * list string) :=
  [ ("a", ["a"; "4"; "@"]);
    ("e", ["e"; "3"]);
    ("i", ["i"; "1"; "!"]);
    ("o", ["o"; "0"]);
    ("s", ["s"; "5"; "$"]);
    ("t", ["t"; "7"]);
    ("l", ["l"; "1"]);
    ("g", ["g"; "9"]) ].

Definition SEPARATORS : list string := [""; "-"; "_"; "."].
Definition CAPS_PATTERNS : list string := ["lower"; "upper"; "title"; "first"].

(** [PasswordGenerator.apply_caps] *)
Definition apply_caps (word pattern : string) : string :=
  if decide (pattern = "lower") then lower word
  else if decide (pattern = "upper") then upper word
  else if decide (pattern = "title") then title word
  else if decide (pattern = "first") then
    match word with
    | EmptyString => word
    | String c r => upper (String c EmptyString) +:+ lower r
    end
  else word.

(** [PasswordGenerator.apply_leet]: the result is [list(set(results))], a
    duplicate-free list in the set's order. *)
Definition apply_leet (word : string) (intensity : Z) : list string :=
  if decide (intensity = 0)%Z then [word]
  else
    let word_lower := lower word in
    let results :=
      word ::
      (if decide (1 ≤ intensity)%Z then
         '(char, replacements) ← LEET_MAP;
         if contains char word_lower then
           repl ← slice 1 2 replacements;
           let new_word := replace (upper char) repl (replace char repl word) in
           if decide (new_word ≠ word) then [new_word] else []
         else []
       else []) in
    elements (list_to_set results : gset string).

(** The three loops of [PasswordGenerator.generate_variations], each as the
    list of strings it adds to [variations]. *)
Definition leet_intensity (depth : Z) (use_leet : bool) : Z :=
  if use_leet then Z.min depth 1 else 0%Z.

Definition word_loop (words : list string) (year : string) (depth : Z)
    (use_leet use_caps : bool) : list string :=
  word ← words;
  cap_pattern ← (if use_caps then CAPS_PATTERNS else ["lower"]);
  let base := apply_caps word cap_pattern in
  leet_word ← apply_leet base (leet_intensity depth use_leet);
  leet_word ::
  (if truthy year then
     (leet_word +:+ year) :: (year +:+ leet_word) ::
     (if decide (2 ≤ depth)%Z then
        sep ← slice 0 2 SEPARATORS;
        if truthy sep
        then [leet_word +:+ sep +:+ year; year +:+ sep +:+ leet_word]
        else []
      else [])
   else []).

Definition pair_loop (words : list string) (year : string) (depth : Z)
    (use_caps : bool) : list string :=
  if bool_decide (2 ≤ depth)%Z && bool_decide (2 ≤ length words) then
    let firsts := slice 0 (min 3 (length words)) words in
    w1 ← firsts;
    w2 ← firsts;
    if decide (w1 ≠ w2) then
      '(cap1, cap2) ← (if use_caps
                       then [("lower", "title"); ("title", "lower")]
                       else [("lower", "lower")]);
      let base1 := apply_caps w1 cap1 in
      let base2 := apply_caps w2 cap2 in
      sep ← slice 0 2 SEPARATORS;
      let combo := base1 +:+ sep +:+ base2 in
      combo ::
      (if truthy year && bool_decide (3 ≤ depth)%Z then [combo +:+ year] else [])
    else []
  else [].

Definition suffix_loop (words : list string) (depth : Z) (use_caps : bool)
  : list string :=
  if decide (2 ≤ depth)%Z then
    let common_suffixes := ["!"; "123"; "1"] in
    word ← words;
    cap_pattern ← (if use_caps then ["lower"; "title"] else ["lower"]);
    let base := apply_caps word cap_pattern in
    suffix ← common_suffixes;
    [base +:+ suffix]
  else [].

(** [PasswordGenerator.generate_variations] *)
Definition generate_variations (words : list string) (year : string)
    (depth : Z) (use_leet use_caps : bool) : gset string :=
  list_to_set (word_loop words year depth use_leet use_caps)
  ∪ list_to_set (pair_loop words year depth use_caps)
  ∪ list_to_set (suffix_loop words depth use_caps).

(** The partition of the tokens built by [GenerationEngine.generate]. *)
Definition word_chunks (words : list string) : list (list string) :=
  if decide (length words ≤ 3) then [words]
  else
    i ← range 0 (length words) 2;
    let chunk := slice i (i + 3) words in
    if decide (1 ≤ length chunk) then [chunk] else [].

(** [GenerationEngine.worker_task] for one chunk when the stop flag is not
    set: the strings it puts on the queue. *)
Definition worker_task (words : list string) (year : string) (depth : Z)
    (use_leet use_caps : bool) : list string :=
  elements (generate_variations words year depth use_leet use_caps).

(** [GenerationEngine.generate] for a run that is not cancelled: the writer
    opens the output file and writes every string the workers queued.  The
    workers race, so only the content of the list is meaningful. *)
Definition generate (words : list string) (year : string) (depth : Z)
    (use_leet use_caps : bool) : run_report :=
  RunReport None true
    (chunk ← word_chunks words; worker_task chunk year depth use_leet use_caps).

(** [WordlisterApp.start_generation]; [depth_input] is the result of
    [int(depth_input)], [None] when it raises. *)
Definition start_generation (words_input year_input : string)
    (depth_input : option Z) (use_leet use_caps : bool) : run_report :=
  if negb (truthy (strip words_input)) then
    RunReport (Some "Please enter words") false []
  else
    let words :=
      w ← split "," words_input;
      if truthy (strip w) then [strip w] else [] in
    let year := strip year_input in
    let depth :=
      match depth_input with
      | Some d => Z.max 1 (Z.min 3 d)
      | None => 2%Z
      end in
    generate words year depth use_leet use_caps.

End Wordlister.

(** ** [wordlister_strong.py]: full substitution, one cooperative generator *)
Module Strong.
Import PyStr PyList.

(** [case_variants] *)
Definition case_variants (word : string) : gset string :=
  {[ lower word; upper word; capitalize word ]}.

(** The glyph table [leet] of [leet_variants]. *)
Definition leet : gmap string (list string) :=
  list_to_map
    [ ("a", ["a"; "A"; "@"; "4"]);
      ("b", ["b"; "B"; "8"]);
      ("c", ["c"; "C"; "("]);
      ("d", ["d"; "D"]);
      ("e", ["e"; "E"; "3"]);
      ("f", ["f"; "F"]);
      ("g", ["g"; "G"; "6"; "9"]);
      ("h", ["h"; "H"; "#"]);
      ("i", ["i"; "I"; "1"; "!"]);
      ("j", ["j"; "J"]);
      ("k", ["k"; "K"]);
      ("l", ["l"; "L"; "1"; "|"]);
      ("m", ["m"; "M"]);
      ("n", ["n"; "N"]);
      ("o", ["o"; "O"; "0"]);
      ("p", ["p"; "P"]);
      ("q", ["q"; "Q"]);
      ("r", ["r"; "R"]);
      ("s", ["s"; "S"; "$"; "5"]);
      ("t", ["t"; "T"; "7"; "+"]);
      ("u", ["u"; "U"]);
      ("v", ["v"; "V"]);
      ("w", ["w"; "W"]);
      ("x", ["x"; "X"]);
      ("y", ["y"; "Y"]);
      ("z", ["z"; "Z"; "2"]) ].

(** [leet.get(c.lower(), [c])] for one character [c] of the word. *)
Definition pool (c : ascii) : list string :=
  let c := String c EmptyString in
  default [c] (leet !! lower c).

Definition pools (word : string) : list (list string) := pool <$> chars word.

(** [leet_variants] *)
Definition leet_variants (word : string) : gset string :=
  list_to_set (join "" <$> product (pools word)).

(** [set().union] applied to the sets [f v] for [v] in [variants]. *)
Definition union_over (f : string → gset string) (variants : gset string)
  : gset string :=
  ⋃ (f <$> elements variants).

(** [mutate_final] *)
Definition mutate_final (word : string) (use_case use_leet : bool) : gset string :=
  let variants : gset string := {[ word ]} in
  let variants := if use_case then union_over case_variants variants else variants in
  let variants := if use_leet then union_over leet_variants variants else variants in
  variants.

(** [w.isdigit() and len(w) in (2, 4)] *)
Definition is_number (w : string) : bool :=
  isdigit w && bool_decide (len w ∈ [2; 4]).

(** [split_words]: both lists keep the input order. *)
Definition split_words (words : list string) : list string * list string :=
  foldl (λ '(names, numbers) w,
           if is_number w then (names, numbers ++ [w]) else (names ++ [w], numbers))
        ([], []) words.

Definition separators : list string := [""; "."; "_"].
Definition symbols : list string := [""; "@"; "!"].

(** The two loops of [combine_words], each as the list of strings it adds
    to [results]. *)
Definition name_name_loop (names numbers : list string) : list string :=
  a ← names;
  b ← names;
  if decide (a = b) then []
  else
    sep ← separators;
    let base := a +:+ sep +:+ b in
    base ::
    (num ← numbers;
     sym ← symbols;
     [base +:+ sym +:+ num; num +:+ base]).

Definition name_year_loop (names numbers : list string) : list string :=
  name ← names;
  num ← numbers;
  sym ← symbols;
  [name +:+ sym +:+ num; num +:+ name].

(** [combine_words] *)
Definition combine_words (names numbers : list string) : gset string :=
  list_to_set (name_name_loop names numbers)
  ∪ list_to_set (name_year_loop names numbers).

(** [estimate_total] *)
Definition estimate_total (base_words : list string) (use_case use_leet : bool)
  : nat :=
  let total :=
    foldl (λ total w,
             let count := 1 in
             let count := if use_case then count * 3 else count in
             let count := if use_leet then count * 3 ^ len w else count in
             total + count)
          0 base_words in
  let '(names, numbers) := split_words base_words in
  let combos := size (combine_words names numbers) in
  let combos := if use_case then combos * 3 else combos in
  let combos :=
    if use_leet && bool_decide (names ≠ [])
    then combos * 3 ^ max_list (len <$> names)
    else combos in
  max (total + combos) 1.

(** The generator's state: the [seen] set and the strings yielded so far,
    oldest first. *)
Record gen_state := GenState {
  seen : gset string;
  yielded : list string
}.

(** The body of both inner loops of [generate_words_smart]. *)
Definition offer (st : gen_state) (v : string) : gen_state :=
  if decide (v ∈ seen st) then st
  else GenState ({[ v ]} ∪ seen st) (yielded st ++ [v]).

(** The inner loop: every variant of [word], in the set's order. *)
Definition offer_variants (use_case use_leet : bool) (st : gen_state)
    (word : string) : gen_state :=
  foldl offer st (elements (mutate_final word use_case use_leet)).

(** [generate_words_smart], run to exhaustion: the strings it yields, in
    order. *)
Definition generate_words_smart (base_words : list string)
    (use_case use_leet : bool) : list string :=
  let st := GenState ∅ [] in
  let '(names, numbers) := split_words base_words in
  let st := foldl (offer_variants use_case use_leet) st base_words in
  let combos := combine_words names numbers in
  let st := foldl (offer_variants use_case use_leet) st (elements combos) in
  yielded st.

(** [WordlistTUI.start_generation] for a run that is not stopped. *)
Definition start_generation (base_input : string) (use_case use_leet : bool)
  : run_report :=
  let base_words := split_ws (replace "," " " base_input) in
  if bool_decide (base_words = []) then
    RunReport (Some "No base words provided") false []
  else
    RunReport None true (generate_words_smart base_words use_case use_leet).

End Strong.

(** ** [GenerationEngine]: the workers, the queue and the writer, step by step *)
Module Engine.
Import PyStr PyList.

(** [Queue(maxsize=10000)] *)
Definition maxsize : nat := 10000.

(** One call of [worker_task]: submitted and not started; at the top of its
    loop with [todo] passwords left; inside [result_queue.put]; back from
    [put] and before [count += 1]; returned.  [count] is the local counter
    of the call. *)
Inductive worker :=
  | Submitted (chunk : list string)
  | Running (todo : list string) (count : nat)
  | Putting (password : string) (todo : list string) (count : nat)
  | Queued (todo : list string) (count : nat)
  | Returned (count : nat).

(** [writer_worker]: at the loop test and in [get]; holding a password it
    has taken from the queue; having written and flushed it, before
    [counter += 1]; out of the loop. *)
Inductive writer :=
  | Polling
  | Writing (password : string)
  | Counting
  | Finished.

Record engine := Engine {
  stop_flag : bool;
  counter : nat;
  result_queue : list string;
  output_file : list string;
  writer_thread : writer;
  workers : list worker
}.

(** What the scheduler lets run next: worker [k], the writer, or whoever
    sets the stop flag ([stop], or [generate] on its way out). *)
Inductive action :=
  | Work (k : nat)
  | Write
  | Stop.

Section steps.
Variables (year : string) (depth : Z) (use_leet use_caps : bool).

(** One step of a worker: its new state and the new queue; [None] when it
    cannot move (blocked in [put] on a full queue, or returned). *)
Definition worker_step (e : engine) (w : worker) : option (worker * list string) :=
  match w with
  | Submitted chunk =>
      if stop_flag e then Some (Returned 0, result_queue e)
      else Some (Running (Wordlister.worker_task chunk year depth use_leet use_caps) 0,
                 result_queue e)
  | Running [] count => Some (Returned count, result_queue e)
  | Running (password :: todo) count =>
      if stop_flag e then Some (Returned count, result_queue e)
      else Some (Putting password todo count, result_queue e)
  | Putting password todo count =>
      if decide (length (result_queue e) < maxsize)
      then Some (Queued todo count, result_queue e ++ [password])
      else None
  | Queued todo count => Some (Running todo (S count), result_queue e)
  | Returned _ => None
  end.

(** One step of the writer; [None] when it keeps polling an empty queue or
    has finished. *)
Definition writer_step (e : engine) : option engine :=
  match writer_thread e with
  | Polling =>
      match result_queue e with
      | password :: queue =>
          Some (Engine (stop_flag e) (counter e) queue (output_file e)
                       (Writing password) (workers e))
      | [] =>
          if stop_flag e
          then Some (Engine (stop_flag e) (counter e) [] (output_file e)
                            Finished (workers e))
          else None
      end
  | Writing password =>
      Some (Engine (stop_flag e) (counter e) (result_queue e)
                   (output_file e ++ [password]) Counting (workers e))
  | Counting =>
      Some (Engine (stop_flag e) (counter e + 1) (result_queue e)
                   (output_file e) Polling (workers e))
  | Finished => None
  end.

Definition step (a : action) (e : engine) : option engine :=
  match a with
  | Work k =>
      w ← workers e !! k;
      '(w', queue) ← worker_step e w;
      Some (Engine (stop_flag e) (counter e) queue (output_file e)
                   (writer_thread e) (<[k := w']> (workers e)))
  | Write => writer_step e
  | Stop =>
      Some (Engine true (counter e) (result_queue e) (output_file e)
                   (writer_thread e) (workers e))
  end.

(** A schedule, run from [e]; [None] when one of its actions cannot move. *)
Fixpoint run (schedule : list action) (e : engine) : option engine :=
  match schedule with
  | [] => Some e
  | a :: schedule => e' ← step a e; run schedule e'
  end.

End steps.

(** [generate] has started the writer, which has opened (and emptied) the
    output file, and submitted one [worker_task] per chunk.  A chunk that
    [generate] leaves unsubmitted because the stop flag is set behaves as a
    submitted one that finds the flag set: neither puts anything. *)
Definition started (words : list string) : engine :=
  Engine false 0 [] [] Polling (Submitted <$> Wordlister.word_chunks words).

(** [get_count] *)
Definition get_count (e : engine) : nat := counter e.

(** Every thread is done. *)
Definition all_done (e : engine) : Prop :=
  writer_thread e = Finished ∧ Forall (λ w, ∃ count, w = Returned count) (workers e).

End Engine.

(** ** Notions used to state the properties *)
Section strong_notions.
Import PyStr PyList Strong.

(** What the [seen] set guarantees between two steps of the generator. *)
Definition gen_inv (st : gen_state) : Prop :=
  NoDup (yielded st) ∧ ∀ v, v ∈ seen st ↔ v ∈ yielded st.

(** The final state of a run, before [yielded] is projected out. *)
Definition final_state (base_words : list string) (use_case use_leet : bool)
  : gen_state :=
  let st := foldl (offer_variants use_case use_leet) (GenState ∅ []) base_words in
  foldl (offer_variants use_case use_leet) st
        (elements (combine_words (split_words base_words).1
                                 (split_words base_words).2)).

(** The product of the sizes of the glyph pools of the positions of [word]. *)
Definition pool_size_product (word : string) : nat :=
  foldr Nat.mul 1 (length <$> pools word).

(** The distinct candidates of a run. *)
Definition candidate_set (base_words : list string) (use_case use_leet : bool)
  : gset string :=
  list_to_set (generate_words_smart base_words use_case use_leet).

(** A comma or a white-space character. *)
Definition comma_or_space (c : ascii) : bool :=
  is_space c || bool_decide (c = ","%char).

End strong_notions.

Section wordlister_notions.
Import PyStr PyList Wordlister.

(** The mutated base strings of a run: every case pattern of every token,
    under every substitution variant ([leet_word] in the first loop). *)
Definition mutated_bases (words : list string) (depth : Z)
    (use_leet use_caps : bool) : list string :=
  word ← words;
  cap_pattern ← (if use_caps then CAPS_PATTERNS else ["lower"]);
  apply_leet (apply_caps word cap_pattern) (leet_intensity depth use_leet).

(** What the first loop adds for one mutated base string [b]. *)
Definition year_forms (b year : string) (depth : Z) : list string :=
  b ::
  (if truthy year then
     (b +:+ year) :: (year +:+ b) ::
     (if decide (2 ≤ depth)%Z then
        sep ← slice 0 2 SEPARATORS;
        if truthy sep then [b +:+ sep +:+ year; year +:+ sep +:+ b] else []
      else [])
   else []).

(** The lines of a complete sampled-mode run over the tokens admin and
    2024, without year, at depth 2, with both options on. *)
Definition admin_2024_lines : list string :=
  lines_written (generate ["admin"; "2024"] "" 2 true true).

End wordlister_notions.

Section more_notions.
Import PyStr PyList Wordlister.

(** The worker count chosen by [WordlisterApp.start_generation];
    [os_cpu_count] is the result of [os.cpu_count()], [None] or a count. *)
Definition thread_count (os_cpu_count : option nat) (threadripper : bool) : nat :=
  let cpu_count :=
    match os_cpu_count with
    | Some n => if decide (n = 0) then 4 else n
    | None => 4
    end in
  if threadripper then cpu_count else max 1 (cpu_count / 2).

(** A word of ASCII characters, the text on which [str.lower], [str.upper],
    [str.title] and [str.capitalize] map character to character as the
    case maps of [PyStr] do. *)
Definition ascii_word (w : string) : Prop :=
  all_chars (λ c, bool_decide (nat_of_ascii c < 128)) w.

(** A well-formed base word: not empty, free of commas and white space. *)
Definition clean_word (w : string) : Prop :=
  w ≠ "" ∧ all_chars (λ c, negb (comma_or_space c)) w.

(** The strings [apply_leet] collects before it removes the duplicates. *)
Definition leet_results (word : string) : list string :=
  word ::
  ('(char, replacements) ← LEET_MAP;
   if contains char (lower word) then
     repl ← slice 1 2 replacements;
     let new_word := replace (upper char) repl (replace char repl word) in
     if decide (new_word ≠ word) then [new_word] else []
   else []).

(** A token as the engine receives it: not empty, without a comma, and
    with no white space left to strip. *)
Definition stripped_token (w : string) : Prop :=
  w ≠ "" ∧ all_chars (λ c, negb (bool_decide (c = ","%char))) w ∧ strip w = w.

(** A string that is empty or starts with a character that is not white
    space. *)
Definition starts_clean (s : string) : Prop :=
  match s with
  | "" => True
  | String c _ => is_space c = false
  end.

End more_notions.

Section engine_notions.
Import Engine.

(** The passwords a worker has put on the queue so far: its local count,
    and one more between [put] and [count += 1]. *)
Definition put_count (w : worker) : nat :=
  match w with
  | Submitted _ => 0
  | Running _ count | Putting _ _ count | Returned count => count
  | Queued _ count => S count
  end.

(** The password the writer holds, if any. *)
Definition in_hand (wr : writer) : list string :=
  match wr with Writing password => [password] | _ => [] end.

(** One for a writer that has written a line it has not counted yet. *)
Definition uncounted (wr : writer) : nat :=
  match wr with Counting => 1 | _ => 0 end.

(** One for a worker that passed the stop test and has not put yet. *)
Definition committed (w : worker) : nat :=
  match w with Putting _ _ _ => 1 | _ => 0 end.

(** The passwords still on their way to the file: queued, in the writer's
    hand, or in a [put] that has passed the stop test. *)
Definition in_flight (e : engine) : nat :=
  length (result_queue e) + length (in_hand (writer_thread e))
  + sum_list (committed <$> workers e).

(** What every schedule preserves. *)
Definition engine_inv (e : engine) : Prop :=
  length (output_file e) = counter e + uncounted (writer_thread e)
  ∧ length (result_queue e) ≤ maxsize
  ∧ sum_list (put_count <$> workers e)
    = length (output_file e) + length (in_hand (writer_thread e))
      + length (result_queue e).

(** Between two passwords of a quiet run: nothing queued, the writer
    polling, the counter level with the file. *)
Definition idle (out : list string) (ws : list worker) : engine :=
  Engine false (length out) [] out Polling ws.

End engine_notions.

Section engine_run_notions.
Import Engine.
Context (year : string) (depth : Z) (use_leet use_caps : bool).

(** A string that some worker of the run may put on the queue. *)
Definition variation_of (words : list string) (s : string) : Prop :=
  ∃ chunk, chunk ∈ Wordlister.word_chunks words
           ∧ s ∈ Wordlister.generate_variations chunk year depth use_leet use_caps.

(** A worker holds only its chunk or variations still to put. *)
Definition worker_sound (words : list string) (w : worker) : Prop :=
  match w with
  | Submitted chunk => chunk ∈ Wordlister.word_chunks words
  | Running todo _ | Queued todo _ => Forall (variation_of words) todo
  | Putting password todo _ =>
      variation_of words password ∧ Forall (variation_of words) todo
  | Returned _ => True
  end.

(** Everything written, queued or held by a thread is a variation. *)
Definition engine_sound (words : list string) (e : engine) : Prop :=
  Forall (variation_of words) (output_file e)
  ∧ Forall (variation_of words) (in_hand (writer_thread e))
  ∧ Forall (variation_of words) (result_queue e)
  ∧ Forall (worker_sound words) (workers e).

End engine_run_notions.

(** Closed membership facts about a run are settled by evaluating it. *)
Ltac by_evaluation := apply (bool_decide_unpack _); vm_compute; exact I.

(** * Properties *)

(** ** Case patterns *)
Section case_patterns.
Import PyStr.

Lemma char_lower_idemp c : char_lower (char_lower c) = char_lower c.
Proof. by destruct c as [[] [] [] [] [] [] [] []]. Qed.

Lemma lower_idemp s : lower (lower s) = lower s.
Proof.
  unfold lower. induction s as [|c r IH]; simpl; [done|].
  by rewrite char_lower_idemp, IH.
Qed.

Lemma lower_is_lower_pattern w : Wordlister.apply_caps w "lower" = lower w.
Proof. done. Qed.

Lemma upper_is_upper_pattern w : Wordlister.apply_caps w "upper" = upper w.
Proof. done. Qed.

(** C8: applying every case pattern of either program to a token [w] (in
    particular to a non-empty one) yields a collection that contains the
    full-lowercase and the full-uppercase form of [w], and the lowercase
    pattern is idempotent. *)
Theorem case_patterns_lower_upper (w : string) :
  (lower w ∈ Wordlister.apply_caps w <$> Wordlister.CAPS_PATTERNS
   ∧ upper w ∈ Wordlister.apply_caps w <$> Wordlister.CAPS_PATTERNS)
  ∧ (lower w ∈ Strong.case_variants w ∧ upper w ∈ Strong.case_variants w)
  ∧ Wordlister.apply_caps (Wordlister.apply_caps w "lower") "lower"
    = Wordlister.apply_caps w "lower"
  ∧ lower (lower w) = lower w.
Proof.
  split_and!.
  - rewrite <-lower_is_lower_pattern. apply list_elem_of_fmap_2.
    unfold Wordlister.CAPS_PATTERNS. set_solver.
  - rewrite <-upper_is_upper_pattern. apply list_elem_of_fmap_2.
    unfold Wordlister.CAPS_PATTERNS. set_solver.
  - unfold Strong.case_variants. set_solver.
  - unfold Strong.case_variants. set_solver.
  - rewrite !lower_is_lower_pattern. apply lower_idemp.
  - apply lower_idemp.
Qed.

End case_patterns.

(** ** The cooperative generator and its [seen] set *)
Section generator.
Import PyStr Strong.

Lemma gen_inv_init : gen_inv (GenState ∅ []).
Proof. split; [constructor | set_solver]. Qed.

Lemma offer_inv st v : gen_inv st → gen_inv (offer st v).
Proof.
  intros [Hnd Hseen]. unfold offer. case_decide as Hv; [done|].
  split; simpl.
  - apply NoDup_app. split_and!; [done| |apply NoDup_singleton].
    intros x Hx ->%list_elem_of_singleton. by apply Hv, Hseen.
  - intros x. rewrite elem_of_union, elem_of_singleton, elem_of_app,
      list_elem_of_singleton, Hseen. tauto.
Qed.

Lemma foldl_offer_inv l st : gen_inv st → gen_inv (foldl offer st l).
Proof. revert st. induction l; simpl; auto using offer_inv. Qed.

Lemma offer_variants_inv uc ul st w :
  gen_inv st → gen_inv (offer_variants uc ul st w).
Proof. apply foldl_offer_inv. Qed.

Lemma foldl_offer_variants_inv uc ul ws st :
  gen_inv st → gen_inv (foldl (offer_variants uc ul) st ws).
Proof. revert st. induction ws; simpl; auto using offer_variants_inv. Qed.

Lemma generate_words_smart_final ws uc ul :
  generate_words_smart ws uc ul = yielded (final_state ws uc ul).
Proof.
  unfold generate_words_smart, final_state.
  by destruct (split_words ws) as [names numbers].
Qed.

(** Both stages run against the one [seen] set, so the invariant holds at
    the end of the run. *)
Lemma final_state_inv ws uc ul : gen_inv (final_state ws uc ul).
Proof.
  unfold final_state.
  apply foldl_offer_variants_inv, foldl_offer_variants_inv, gen_inv_init.
Qed.

(** C5: within one run the candidate stream never yields the same string
    twice, whatever the tokens and the options: the strings yielded by the
    single-word stage and by the combination stage are pairwise distinct. *)
Theorem generate_words_smart_NoDup (base_words : list string)
    (use_case use_leet : bool) :
  NoDup (generate_words_smart base_words use_case use_leet).
Proof.
  rewrite generate_words_smart_final.
  by destruct (final_state_inv base_words use_case use_leet) as [Hnd _].
Qed.

(** A string is yielded after an offer when it was yielded before or is the
    one offered. *)
Lemma elem_of_offer st v x :
  gen_inv st → x ∈ yielded (offer st v) ↔ x ∈ yielded st ∨ x = v.
Proof.
  intros [_ Hseen]. unfold offer. case_decide as Hv; simpl.
  - apply Hseen in Hv. split; [by left|]. by intros [?| ->].
  - by rewrite elem_of_app, list_elem_of_singleton.
Qed.

Lemma elem_of_foldl_offer l st x :
  gen_inv st → x ∈ yielded (foldl offer st l) ↔ x ∈ yielded st ∨ x ∈ l.
Proof.
  revert st. induction l as [|v l IH]; intros st Hst; simpl.
  - rewrite elem_of_nil. tauto.
  - rewrite IH, elem_of_offer, elem_of_cons by auto using offer_inv. tauto.
Qed.

Lemma elem_of_foldl_offer_variants uc ul ws st x :
  gen_inv st →
  x ∈ yielded (foldl (offer_variants uc ul) st ws)
  ↔ x ∈ yielded st ∨ ∃ w, w ∈ ws ∧ x ∈ mutate_final w uc ul.
Proof.
  revert st. induction ws as [|w ws IH]; intros st Hst; simpl.
  - split; [by left|]. intros [?|(w & Hw & _)]; [done|]. by apply elem_of_nil in Hw.
  - rewrite IH by auto using offer_variants_inv.
    unfold offer_variants. rewrite elem_of_foldl_offer, elem_of_elements by done.
    split.
    + intros [[?| ?]|(w' & Hw' & ?)]; [by left|right|right].
      * exists w. split; [constructor | done].
      * exists w'. split; [by constructor | done].
    + intros [?|(w' & Hw' & Hx)]; [by left; left|].
      apply elem_of_cons in Hw' as [->|Hw']; [by left; right|].
      right. by exists w'.
Qed.

Lemma elem_of_yielded_final_state ws uc ul v :
  v ∈ yielded (final_state ws uc ul) ↔
  ∃ w, (w ∈ ws ∨ w ∈ combine_words (split_words ws).1 (split_words ws).2)
       ∧ v ∈ mutate_final w uc ul.
Proof.
  unfold final_state.
  rewrite elem_of_foldl_offer_variants
    by apply foldl_offer_variants_inv, gen_inv_init.
  rewrite elem_of_foldl_offer_variants by apply gen_inv_init.
  simpl. rewrite elem_of_nil. setoid_rewrite elem_of_elements.
  split.
  - intros [[[]|(w & ? & ?)]|(w & ? & ?)]; exists w; auto.
  - intros (w & [?|?] & ?); [left; right | right]; by exists w.
Qed.

(** The candidates of a run are exactly the variants of the base words and
    of the combinations of [combine_words]. *)
Theorem elem_of_generate_words_smart (base_words : list string)
    (use_case use_leet : bool) (v : string) :
  v ∈ generate_words_smart base_words use_case use_leet ↔
  ∃ w, (w ∈ base_words
        ∨ w ∈ combine_words (split_words base_words).1 (split_words base_words).2)
       ∧ v ∈ mutate_final w use_case use_leet.
Proof.
  rewrite generate_words_smart_final. apply elem_of_yielded_final_state.
Qed.

(** C10: with both options off the mutation is the identity, [{w}]; a run
    over the single token [w] then yields [w] unchanged and nothing else. *)
Theorem mutate_final_identity (w : string) :
  mutate_final w false false = {[ w ]}
  ∧ generate_words_smart [w] false false = [w].
Proof.
  split; [done|].
  unfold generate_words_smart, split_words. simpl.
  destruct (is_number w); simpl.
  - unfold offer_variants, mutate_final, combine_words. simpl.
    rewrite elements_singleton. simpl.
    unfold offer at 2. simpl. rewrite decide_False by set_solver. simpl.
    assert ((∅ ∪ ∅ : gset string) = ∅) as -> by set_solver.
    by rewrite elements_empty.
  - unfold offer_variants, mutate_final, combine_words, name_name_loop,
      name_year_loop. simpl.
    rewrite decide_True by done. simpl.
    rewrite elements_singleton. simpl.
    unfold offer at 2. simpl. rewrite decide_False by set_solver. simpl.
    assert ((∅ ∪ ∅ : gset string) = ∅) as -> by set_solver.
    by rewrite elements_empty.
Qed.

End generator.

(** ** Chunking of the token list *)
Section chunks.
Import PyList Wordlister.

Lemma range_step2_length n : length (range 0 n 2) = (n + 1) / 2.
Proof.
  unfold range. rewrite length_fmap, length_seq. f_equal. lia.
Qed.

Lemma range_step2_lookup n k :
  k < (n + 1) / 2 → range 0 n 2 !! k = Some (2 * k).
Proof.
  intros Hk. unfold range. rewrite list_lookup_fmap.
  replace (n - 0 + (2 - 1)) with (n + 1) by lia.
  rewrite lookup_seq_lt by done. simpl. f_equal. lia.
Qed.

Lemma range_step2_bound n i : i ∈ range 0 n 2 → i < n.
Proof.
  unfold range. intros (k & -> & Hk%elem_of_seq)%list_elem_of_fmap.
  replace (n - 0 + (2 - 1)) with (n + 1) in Hk by lia.
  assert (2 * ((n + 1) / 2) ≤ n + 1) by (apply Nat.Div0.mul_div_le).
  lia.
Qed.

(** Past three tokens the chunks are the windows [words[i:i+3]] for [i] in
    [range(0, len(words), 2)]: none of them is empty, so none is dropped. *)
Lemma word_chunks_windows (words : list string) :
  3 < length words →
  word_chunks words = (λ i, slice i (i + 3) words) <$> range 0 (length words) 2.
Proof.
  intros Hlen. unfold word_chunks. rewrite decide_False by lia.
  assert (Forall (λ i, i < length words) (range 0 (length words) 2)) as Hall.
  { apply Forall_forall. intros i. apply range_step2_bound. }
  induction Hall as [|i l Hi _ IH]; [done|].
  rewrite fmap_cons, bind_cons, IH. simpl.
  rewrite decide_True; [done|].
  unfold slice. rewrite length_take, length_drop. lia.
Qed.

Lemma slice_window {A} (l : list A) i : slice i (i + 3) l = take 3 (drop i l).
Proof. unfold slice. f_equal. lia. Qed.

(** C7: up to three tokens form exactly one chunk holding all of them; more
    tokens are cut into the windows of at most three tokens that start at
    the even positions 0, 2, 4, ..., so that a chunk and its successor
    share exactly one position of the token list (the third token of the
    one is the first token of the other); in either case every token lies
    in some chunk. *)
Theorem word_chunks_policy (words : list string) :
  (length words ≤ 3 → word_chunks words = [words])
  ∧ (3 < length words →
       length (word_chunks words) = (length words + 1) / 2
       ∧ (∀ k, k < (length words + 1) / 2 →
            word_chunks words !! k = Some (take 3 (drop (2 * k) words)))
       ∧ (∀ k chunk, word_chunks words !! k = Some chunk →
            1 ≤ length chunk ≤ 3)
       ∧ (∀ k chunk next,
            word_chunks words !! k = Some chunk →
            word_chunks words !! S k = Some next →
            length chunk = 3
            ∧ (∀ i j, i < length chunk → j < length next →
                 (2 * k + i = 2 * S k + j ↔ i = 2 ∧ j = 0))
            ∧ chunk !! 2 = words !! (2 * k + 2)
            ∧ next !! 0 = words !! (2 * k + 2)
            ∧ is_Some (words !! (2 * k + 2))))
  ∧ (∀ w, w ∈ words → ∃ chunk, chunk ∈ word_chunks words ∧ w ∈ chunk).
Proof.
  assert (Hlookup : 3 < length words → ∀ k chunk,
            word_chunks words !! k = Some chunk →
            k < (length words + 1) / 2 ∧ chunk = take 3 (drop (2 * k) words)).
  { intros Hlen k chunk. rewrite word_chunks_windows by done.
    rewrite list_lookup_fmap. intros Hk.
    destruct (range 0 (length words) 2 !! k) as [i|] eqn:Hi; [|done].
    assert (k < (length words + 1) / 2) as Hlt.
    { apply lookup_lt_Some in Hi. by rewrite range_step2_length in Hi. }
    rewrite range_step2_lookup in Hi by done.
    simplify_eq/=. by rewrite slice_window. }
  assert (Hdiv : 2 * ((length words + 1) / 2) ≤ length words + 1)
    by apply Nat.Div0.mul_div_le.
  split_and!.
  - intros Hlen. unfold word_chunks. by rewrite decide_True.
  - intros Hlen. split_and!.
    + by rewrite word_chunks_windows, length_fmap, range_step2_length.
    + intros k Hk. rewrite word_chunks_windows by done.
      by rewrite list_lookup_fmap, range_step2_lookup, <-slice_window.
    + intros k chunk Hk. destruct (Hlookup Hlen k chunk Hk) as [Hlt ->].
      rewrite length_take, length_drop. lia.
    + intros k chunk next Hk Hnext.
      destruct (Hlookup Hlen k chunk Hk) as [Hlt ->].
      destruct (Hlookup Hlen (S k) next Hnext) as [Hlt' ->].
      assert (2 * k + 2 < length words) as Hin by lia.
      split_and!.
      * rewrite length_take, length_drop. lia.
      * intros i j. rewrite !length_take, !length_drop. lia.
      * rewrite lookup_take_lt, lookup_drop by lia. done.
      * rewrite lookup_take_lt, lookup_drop by lia. f_equal. lia.
      * by apply lookup_lt_is_Some.
  - intros w Hw. destruct (decide (length words ≤ 3)) as [Hlen|Hlen].
    + exists words. unfold word_chunks. rewrite decide_True by done.
      split; [constructor | done].
    + apply list_elem_of_lookup in Hw as [j Hj].
      assert (j < length words) as Hjlt by (by eapply lookup_lt_Some).
      exists (take 3 (drop (2 * (j / 2)) words)).
      assert (2 * (j / 2) ≤ j) by apply Nat.Div0.mul_div_le.
      assert (j < 2 * (j / 2) + 2).
      { pose proof (Nat.div_mod_eq j 2). pose proof (Nat.mod_upper_bound j 2). lia. }
      split.
      * rewrite word_chunks_windows by lia.
        apply list_elem_of_lookup. exists (j / 2).
        rewrite list_lookup_fmap, range_step2_lookup, <-slice_window; [done|].
        apply Nat.Div0.div_lt_upper_bound.
        pose proof (Nat.div_mod_eq (length words + 1) 2).
        pose proof (Nat.mod_upper_bound (length words + 1) 2). lia.
      * apply list_elem_of_lookup. exists (j - 2 * (j / 2)).
        rewrite lookup_take_lt, lookup_drop by lia.
        rewrite <-Hj. f_equal. lia.
Qed.

End chunks.

(** ** Full substitution: the size of [leet_variants] *)
Section full_substitution.
Import PyStr PyList Strong.

Lemma append_empty_r s : s +:+ "" = s.
Proof.
  induction s as [|c r IH]; [done|].
  change (String c (r +:+ "") = String c r). by rewrite IH.
Qed.

Lemma append_char c s : String c "" +:+ s = String c s.
Proof. done. Qed.

Lemma join_empty_cons p ps : join "" (p :: ps) = p +:+ join "" ps.
Proof. destruct ps; simpl; [by rewrite append_empty_r | done]. Qed.

(** Joining one-character strings loses nothing. *)
Lemma join_glyphs_inj l1 l2 :
  Forall (λ g, len g = 1) l1 → Forall (λ g, len g = 1) l2 →
  join "" l1 = join "" l2 → l1 = l2.
Proof.
  intros H1. revert l2.
  induction H1 as [|g1 l1 Hg1 _ IH]; intros l2 H2; destruct H2 as [|g2 l2 Hg2 H2].
  - done.
  - rewrite join_empty_cons.
    destruct g2 as [|? [|??]]; simplify_eq/=. by rewrite append_char.
  - rewrite join_empty_cons.
    destruct g1 as [|? [|??]]; simplify_eq/=. by rewrite append_char.
  - rewrite !join_empty_cons.
    destruct g1 as [|c1 [|??]]; simplify_eq/=.
    destruct g2 as [|c2 [|??]]; simplify_eq/=.
    rewrite !append_char. intros [= -> Hrest]. f_equal. by apply IH.
Qed.

Lemma length_bind_cons {A} (p : list A) (rest : list (list A)) :
  length (x ← p; (cons x) <$> rest) = length p * length rest.
Proof.
  induction p as [|x p IHp]; [done|].
  rewrite bind_cons, length_app, length_fmap, IHp. done.
Qed.

Lemma product_length {A} (ps : list (list A)) :
  length (product ps) = foldr Nat.mul 1 (length <$> ps).
Proof.
  induction ps as [|p ps IH]; [done|].
  rewrite fmap_cons. simpl. by rewrite length_bind_cons, IH.
Qed.

Lemma product_elem_of {A} (ps : list (list A)) (xs : list A) :
  xs ∈ product ps → Forall2 (λ x p, x ∈ p) xs ps.
Proof.
  revert xs. induction ps as [|p ps IH]; simpl; intros xs.
  - by intros ->%list_elem_of_singleton.
  - intros (x & (rest & -> & Hrest)%list_elem_of_fmap & Hx)%list_elem_of_bind.
    constructor; auto.
Qed.

Lemma product_NoDup {A} (ps : list (list A)) :
  Forall NoDup ps → NoDup (product ps).
Proof.
  induction 1 as [|p ps Hp _ IH]; simpl; [apply NoDup_singleton|].
  apply NoDup_bind; [| |done].
  - intros x1 x2 xs _ _ (r1 & -> & _)%list_elem_of_fmap
      (r2 & [= -> _] & _)%list_elem_of_fmap. done.
  - intros x _. apply NoDup_fmap_2; [|done]. by intros ?? [=].
Qed.

(** Every entry of the glyph table lists distinct one-character strings. *)
Lemma leet_entry k glyphs :
  leet !! k = Some glyphs → NoDup glyphs ∧ Forall (λ g, len g = 1) glyphs.
Proof.
  unfold leet. intros Hin%elem_of_list_to_map_2.
  set (P := λ entry : string * list string,
              NoDup entry.2 ∧ Forall (λ g, len g = 1) entry.2).
  change (P (k, glyphs)). revert Hin.
  generalize (k, glyphs). apply Forall_forall. unfold P.
  repeat (apply Forall_cons_2;
          [split; [apply (bool_decide_unpack _); vm_compute; exact I
                  | repeat constructor]|]).
  apply Forall_nil_2.
Qed.

Lemma pool_glyphs c : NoDup (pool c) ∧ Forall (λ g, len g = 1) (pool c).
Proof.
  unfold pool. destruct (leet !! _) as [glyphs|] eqn:Hk; simpl.
  - by eapply leet_entry.
  - split; [apply NoDup_singleton | by repeat constructor].
Qed.

Lemma pools_NoDup word : Forall NoDup (pools word).
Proof.
  unfold pools. apply Forall_fmap, Forall_forall. intros c _. apply pool_glyphs.
Qed.

Lemma pools_glyphs word xs :
  xs ∈ product (pools word) → Forall (λ g, len g = 1) xs.
Proof.
  intros Hxs%product_elem_of.
  assert (Forall (Forall (λ g, len g = 1)) (pools word)) as Hall.
  { unfold pools. apply Forall_fmap, Forall_forall. intros c _. apply pool_glyphs. }
  induction Hxs as [|x p xs ps Hx _ IH]; [constructor|].
  apply Forall_cons in Hall as [Hp Hps].
  constructor; [|by apply IH].
  by eapply Forall_forall in Hp.
Qed.

(** C4: in full substitution mode the set of variants of a word has exactly
    as many elements as the product, over the character positions, of the
    size of the position's glyph pool, the pool of a character being its
    table entry under the lowercased character, or the character alone
    when the table has no entry for it. *)
Theorem leet_variants_size (word : string) :
  size (leet_variants word) = pool_size_product word
  ∧ pools word
    = (λ c, default [String c ""] (leet !! lower (String c ""))) <$> chars word.
Proof.
  split; [|done].
  unfold leet_variants, pool_size_product.
  rewrite size_list_to_set, length_fmap, product_length; [done|].
  apply NoDup_fmap_2_strong; [|apply product_NoDup, pools_NoDup].
  intros xs ys Hxs Hys. apply join_glyphs_inj; by eapply pools_glyphs.
Qed.

End full_substitution.

(** ** The estimate against the number of candidates *)
Section estimate.
Import PyStr Strong.

Lemma size_union_le (X Y : gset string) : size (X ∪ Y) ≤ size X + size Y.
Proof.
  rewrite size_union_alt. apply Nat.add_le_mono_l, subseteq_size.
  intros x [Hx _]%elem_of_difference. exact Hx.
Qed.

Lemma case_variants_size w : size (case_variants w) ≤ 3.
Proof.
  unfold case_variants.
  etrans; [apply size_union_le|]. rewrite size_singleton.
  etrans; [apply Nat.add_le_mono_r, size_union_le|]. rewrite !size_singleton. lia.
Qed.

Lemma union_over_singleton f w : union_over f {[ w ]} = f w.
Proof.
  unfold union_over. rewrite elements_singleton. simpl.
  apply (right_id_L ∅ (∪)).
Qed.

(** Without substitution a word has at most three variants, one if the
    case option is off too. *)
Lemma mutate_final_no_leet_size w uc :
  size (mutate_final w uc false) ≤ (if uc then 3 else 1).
Proof.
  unfold mutate_final. destruct uc.
  - rewrite union_over_singleton. apply case_variants_size.
  - by rewrite size_singleton.
Qed.

Lemma offer_length st v : length (yielded (offer st v)) ≤ S (length (yielded st)).
Proof. unfold offer. case_decide; simpl; [lia|]. rewrite length_app. simpl. lia. Qed.

Lemma foldl_offer_length l st :
  length (yielded (foldl offer st l)) ≤ length (yielded st) + length l.
Proof.
  revert st. induction l as [|v l IH]; intros st; simpl; [lia|].
  etrans; [apply IH|]. pose proof (offer_length st v). lia.
Qed.

Lemma foldl_offer_variants_length uc ws st n :
  (∀ w, size (mutate_final w uc false) ≤ n) →
  length (yielded (foldl (offer_variants uc false) st ws))
  ≤ length (yielded st) + length ws * n.
Proof.
  intros Hn. revert st. induction ws as [|w ws IH]; intros st; simpl; [lia|].
  etrans; [apply IH|].
  pose proof (foldl_offer_length (elements (mutate_final w uc false)) st) as Hle.
  specialize (Hn w). unfold size, set_size, compose in Hn.
  change (length (yielded (offer_variants uc false st w))
          ≤ length (yielded st) + length (elements (mutate_final w uc false)))
    in Hle.
  lia.
Qed.

(** The per-token loop of the estimate when every token counts the same. *)
Lemma foldl_constant_count (f : nat → string → nat) (n : nat) ws acc :
  (∀ total w, f total w = total + n) →
  foldl f acc ws = acc + length ws * n.
Proof.
  intros Hf. revert acc. induction ws as [|w ws IH]; intros acc; simpl; [lia|].
  rewrite IH, Hf. lia.
Qed.

(** C1 (as amended): with the substitution option off, the estimate bounds
    the number of distinct candidates of the run from above, for every token
    list and either setting of the case option; and the estimate is at least
    1 under every setting. *)
Theorem estimate_total_bounds_no_leet :
  (∀ (base_words : list string) (use_case : bool),
     size (candidate_set base_words use_case false)
     ≤ estimate_total base_words use_case false)
  ∧ (∀ (base_words : list string) (use_case use_leet : bool),
       1 ≤ estimate_total base_words use_case use_leet).
Proof.
  split.
  - intros ws uc. unfold candidate_set.
    rewrite generate_words_smart_final.
    rewrite size_list_to_set by apply final_state_inv.
    unfold final_state, estimate_total.
    destruct (split_words ws) as [names numbers].
    set (n := if uc then 3 else 1).
    rewrite (foldl_constant_count _ n) by (intros; unfold n; destruct uc; lia).
    cbn [fst snd andb].
    etrans; [apply (foldl_offer_variants_length uc _ _ n)|].
    { intros w. apply mutate_final_no_leet_size. }
    etrans; [apply Nat.add_le_mono_r,
               (foldl_offer_variants_length uc _ _ n)|].
    { intros w. apply mutate_final_no_leet_size. }
    unfold n, size, set_size, compose. destruct uc; simpl; lia.
  - intros ws uc ul. unfold estimate_total.
    destruct (split_words ws) as [names numbers]. lia.
Qed.

(** C1 fails as stated: for the single token [a] with only the substitution
    option on, the run produces the four candidates a, A, 4 and @, and the
    estimate is 3. *)
Lemma estimate_total_undershoots :
  ¬ (size (candidate_set ["a"] false true) ≤ estimate_total ["a"] false true).
Proof. vm_compute. lia. Qed.

End estimate.

(** ** The pattern combiners *)
Section combiners.
Import PyStr PyList.

Lemma elem_of_name_name_loop names numbers s :
  s ∈ Strong.name_name_loop names numbers ↔
  ∃ a b sep,
    a ∈ names ∧ b ∈ names ∧ a ≠ b ∧ sep ∈ Strong.separators
    ∧ (s = a +:+ sep +:+ b
       ∨ ∃ num sym, num ∈ numbers ∧ sym ∈ Strong.symbols
           ∧ (s = (a +:+ sep +:+ b) +:+ sym +:+ num
              ∨ s = num +:+ (a +:+ sep +:+ b))).
Proof.
  unfold Strong.name_name_loop. split.
  - intros (a & Hs & Ha)%list_elem_of_bind.
    apply list_elem_of_bind in Hs as (b & Hs & Hb).
    case_decide as Hab; [by apply elem_of_nil in Hs|].
    apply list_elem_of_bind in Hs as (sep & Hs & Hsep).
    exists a, b, sep. split_and!; [done..|].
    apply elem_of_cons in Hs as [->|Hs]; [by left|right].
    apply list_elem_of_bind in Hs as (num & Hs & Hnum).
    apply list_elem_of_bind in Hs as (sym & Hs & Hsym).
    exists num, sym. split_and!; [done..|].
    apply elem_of_cons in Hs as [->|Hs]; [by left|right].
    by apply list_elem_of_singleton in Hs.
  - intros (a & b & sep & Ha & Hb & Hab & Hsep & Hs).
    apply list_elem_of_bind. exists a. split; [|done].
    apply list_elem_of_bind. exists b. split; [|done].
    rewrite decide_False by done.
    apply list_elem_of_bind. exists sep. split; [|done].
    destruct Hs as [->|(num & sym & Hnum & Hsym & Hs)]; [constructor|].
    apply elem_of_cons. right.
    apply list_elem_of_bind. exists num. split; [|done].
    apply list_elem_of_bind. exists sym. split; [|done].
    destruct Hs as [->| ->]; [constructor|]. apply elem_of_cons. right. constructor.
Qed.

Lemma elem_of_name_year_loop names numbers s :
  s ∈ Strong.name_year_loop names numbers ↔
  ∃ name num sym,
    name ∈ names ∧ num ∈ numbers ∧ sym ∈ Strong.symbols
    ∧ (s = name +:+ sym +:+ num ∨ s = num +:+ name).
Proof.
  unfold Strong.name_year_loop. split.
  - intros (name & Hs & Hname)%list_elem_of_bind.
    apply list_elem_of_bind in Hs as (num & Hs & Hnum).
    apply list_elem_of_bind in Hs as (sym & Hs & Hsym).
    exists name, num, sym. split_and!; [done..|].
    apply elem_of_cons in Hs as [->|Hs]; [by left|right].
    by apply list_elem_of_singleton in Hs.
  - intros (name & num & sym & Hname & Hnum & Hsym & Hs).
    apply list_elem_of_bind. exists name. split; [|done].
    apply list_elem_of_bind. exists num. split; [|done].
    apply list_elem_of_bind. exists sym. split; [|done].
    destruct Hs as [->| ->]; [constructor|]. apply elem_of_cons. right. constructor.
Qed.

(** [split_words] sorts the tokens by [is_number]: no name is a number. *)
Lemma split_words_fold_classes words names numbers :
  Forall (λ w, Strong.is_number w = false) names →
  Forall (λ w, Strong.is_number w = true) numbers →
  let result :=
    foldl (λ '(names, numbers) w,
             if Strong.is_number w then (names, numbers ++ [w])
             else (names ++ [w], numbers)) (names, numbers) words in
  Forall (λ w, Strong.is_number w = false) result.1
  ∧ Forall (λ w, Strong.is_number w = true) result.2.
Proof.
  revert names numbers.
  induction words as [|w words IH]; intros names numbers Hnames Hnumbers;
    simpl; [done|].
  destruct (Strong.is_number w) eqn:Hw; apply IH; try done;
    apply Forall_app; split; try done; by repeat constructor.
Qed.

Lemma split_words_classes words :
  Forall (λ w, Strong.is_number w = false) (Strong.split_words words).1
  ∧ Forall (λ w, Strong.is_number w = true) (Strong.split_words words).2.
Proof. by apply split_words_fold_classes. Qed.

Lemma slice_from_start_subseteq {A} n (l : list A) x : x ∈ slice 0 n l → x ∈ l.
Proof. unfold slice. rewrite drop_0. apply subseteq_take. Qed.

Lemma elem_of_pair_loop words year depth use_caps s :
  s ∈ Wordlister.pair_loop words year depth use_caps →
  ∃ w1 w2 cap1 cap2 sep,
    w1 ∈ words ∧ w2 ∈ words ∧ w1 ≠ w2 ∧ sep ∈ ["" ; "-"]
    ∧ (s = Wordlister.apply_caps w1 cap1 +:+ sep +:+ Wordlister.apply_caps w2 cap2
       ∨ s = (Wordlister.apply_caps w1 cap1 +:+ sep +:+ Wordlister.apply_caps w2 cap2)
             +:+ year).
Proof.
  unfold Wordlister.pair_loop.
  destruct (_ && _); [|by intros ?%elem_of_nil].
  intros (w1 & Hs & Hw1%slice_from_start_subseteq)%list_elem_of_bind.
  apply list_elem_of_bind in Hs as (w2 & Hs & Hw2%slice_from_start_subseteq).
  case_decide as Hne; [|by apply elem_of_nil in Hs].
  apply list_elem_of_bind in Hs as ([cap1 cap2] & Hs & _).
  apply list_elem_of_bind in Hs as (sep & Hs & Hsep).
  exists w1, w2, cap1, cap2, sep. split_and!; [done..|].
  apply elem_of_cons in Hs as [->|Hs]; [by left|right].
  destruct (_ && _); [|by apply elem_of_nil in Hs].
  by apply list_elem_of_singleton in Hs.
Qed.

(** C9: neither combiner pairs a token with itself.  Every string of the
    full-mode combiner is either built on [a sep b] for two names [a] and
    [b] that differ as strings, or attaches a number to one name, and a
    name is never a number; every two-word string of the sampled-mode
    generator joins two tokens [w1] and [w2] that differ as strings.  This
    holds for all token lists, separators, symbols and numbers. *)
Theorem combiners_pair_distinct_tokens :
  (∀ (names numbers : list string) (s : string),
     s ∈ Strong.combine_words names numbers ↔
     (∃ a b sep,
        a ∈ names ∧ b ∈ names ∧ a ≠ b ∧ sep ∈ Strong.separators
        ∧ (s = a +:+ sep +:+ b
           ∨ ∃ num sym, num ∈ numbers ∧ sym ∈ Strong.symbols
               ∧ (s = (a +:+ sep +:+ b) +:+ sym +:+ num
                  ∨ s = num +:+ (a +:+ sep +:+ b))))
     ∨ (∃ name num sym,
          name ∈ names ∧ num ∈ numbers ∧ sym ∈ Strong.symbols
          ∧ (s = name +:+ sym +:+ num ∨ s = num +:+ name)))
  ∧ (∀ (base_words : list string) (name num : string),
       name ∈ (Strong.split_words base_words).1 →
       num ∈ (Strong.split_words base_words).2 →
       name ≠ num)
  ∧ (∀ (words : list string) (year : string) (depth : Z) (use_caps : bool)
       (s : string),
       s ∈ Wordlister.pair_loop words year depth use_caps →
       ∃ w1 w2 cap1 cap2 sep,
         w1 ∈ words ∧ w2 ∈ words ∧ w1 ≠ w2 ∧ sep ∈ ["" ; "-"]
         ∧ (s = Wordlister.apply_caps w1 cap1 +:+ sep
                +:+ Wordlister.apply_caps w2 cap2
            ∨ s = (Wordlister.apply_caps w1 cap1 +:+ sep
                   +:+ Wordlister.apply_caps w2 cap2) +:+ year)).
Proof.
  split_and!.
  - intros names numbers s. unfold Strong.combine_words.
    by rewrite elem_of_union, !elem_of_list_to_set,
      elem_of_name_name_loop, elem_of_name_year_loop.
  - intros base_words name num Hname Hnum ->.
    destruct (split_words_classes base_words) as [Hnames Hnumbers].
    eapply Forall_forall in Hnames; [|done].
    eapply Forall_forall in Hnumbers; [|done].
    simpl in *. congruence.
  - apply elem_of_pair_loop.
Qed.

End combiners.

(** ** Year and suffix combinations of the sampled-mode generator *)
Section year_combinations.
Import PyStr PyList Wordlister.

Lemma bind_bind {A B C} (f : A → list B) (g : B → list C) (l : list A) :
  (l ≫= f) ≫= g = l ≫= (λ x, f x ≫= g).
Proof.
  induction l as [|x l IH]; [done|]. by rewrite !bind_cons, bind_app, IH.
Qed.

Lemma word_loop_year_forms words year depth use_leet use_caps :
  word_loop words year depth use_leet use_caps
  = (b ← mutated_bases words depth use_leet use_caps; year_forms b year depth).
Proof.
  unfold word_loop, mutated_bases. rewrite bind_bind.
  apply list_bind_ext; [|done]. intros word. by rewrite bind_bind.
Qed.

Lemma year_forms_spec b year depth :
  year ≠ "" →
  b +:+ year ∈ year_forms b year depth
  ∧ year +:+ b ∈ year_forms b year depth
  ∧ ((2 ≤ depth)%Z →
       b +:+ "-" +:+ year ∈ year_forms b year depth
       ∧ year +:+ "-" +:+ b ∈ year_forms b year depth).
Proof.
  intros Hyear. unfold year_forms.
  destruct year as [|c year]; [done|]. simpl.
  split_and!.
  - set_solver.
  - set_solver.
  - intros Hdepth. rewrite decide_True by done. set_solver.
Qed.

Lemma elem_of_suffix_loop words depth (use_caps : bool) (word cap suffix : string) :
  (2 ≤ depth)%Z → word ∈ words →
  cap ∈ (if use_caps then ["lower"; "title"] else ["lower"]) →
  suffix ∈ ["!"; "123"; "1"] →
  apply_caps word cap +:+ suffix ∈ suffix_loop words depth use_caps.
Proof.
  intros Hdepth Hword Hcap Hsuffix. unfold suffix_loop.
  rewrite decide_True by done.
  apply list_elem_of_bind. exists word. split; [|done].
  apply list_elem_of_bind. exists cap. split; [|done].
  apply list_elem_of_bind. exists suffix. split; [constructor|done].
Qed.

(** C6 (as amended): with a non-empty year, every mutated base string [b]
    (every case pattern of every token under every substitution variant)
    gives [b+year] and [year+b], and from depth 2 on also [b-year] and
    [year-b], the hyphen being the only separator used.  From depth 2 on
    the suffixes !, 123 and 1 are appended to the lowercase and title-case
    forms of each token (to the lowercase form alone when the case option
    is off). *)
Theorem year_and_suffix_combinations (words : list string) (year : string)
    (depth : Z) (use_leet use_caps : bool) :
  let variations := generate_variations words year depth use_leet use_caps in
  (year ≠ "" →
   ∀ b, b ∈ mutated_bases words depth use_leet use_caps →
     b +:+ year ∈ variations ∧ year +:+ b ∈ variations
     ∧ ((2 ≤ depth)%Z →
          b +:+ "-" +:+ year ∈ variations ∧ year +:+ "-" +:+ b ∈ variations))
  ∧ ((2 ≤ depth)%Z →
     ∀ word cap suffix : string,
       word ∈ words →
       cap ∈ (if use_caps then ["lower"; "title"] else ["lower"]) →
       suffix ∈ ["!"; "123"; "1"] →
       apply_caps word cap +:+ suffix ∈ variations).
Proof.
  intros variations. subst variations. unfold generate_variations. split.
  - intros Hyear b Hb.
    assert (∀ s, s ∈ year_forms b year depth →
              s ∈ word_loop words year depth use_leet use_caps) as Hin.
    { intros s Hs. rewrite word_loop_year_forms.
      apply list_elem_of_bind. eauto. }
    destruct (year_forms_spec b year depth Hyear) as (H1 & H2 & H3).
    rewrite !elem_of_union, !elem_of_list_to_set.
    split_and!; [auto..|].
    intros Hdepth. destruct (H3 Hdepth) as [H4 H5]. auto.
  - intros Hdepth word cap suffix Hword Hcap Hsuffix.
    rewrite !elem_of_union, !elem_of_list_to_set. right.
    by apply elem_of_suffix_loop.
Qed.

(** C6 fails as stated: [AB] is a mutated base string of the token [ab]
    (its upper-case pattern), and with year 9 and depth 2 the string [AB!]
    is not generated. *)
Lemma suffix_skips_mutated_bases :
  ¬ (∀ b suffix : string,
       b ∈ mutated_bases ["ab"] 2 true true →
       suffix ∈ ["!"; "123"; "1"] →
       b +:+ suffix ∈ generate_variations ["ab"] "9" 2 true true).
Proof.
  intros Hall.
  assert ("AB" +:+ "!" ∉ generate_variations ["ab"] "9" 2 true true) as Hout.
  { apply (bool_decide_unpack _). vm_compute. exact I. }
  apply Hout, Hall.
  - apply (bool_decide_unpack _). vm_compute. exact I.
  - apply (bool_decide_unpack _). vm_compute. exact I.
Qed.

End year_combinations.

(** ** End to end: the tokens admin and 2024 in sampled mode *)
Section end_to_end.
Import PyStr PyList Wordlister.

(** C3 (as amended): the run over admin and 2024 (no year, depth 2, case and
    substitution on, sampled mode) writes admin, ADMIN, Admin, the
    single-class substitutions 4dmin and adm1n, and the combinations
    admin2024, admin-2024 and 2024admin; it does not write admin@2024, the
    sampled-mode generator having no symbol attachments.  The same run is
    what the start button launches on the input [admin,2024]. *)
Theorem admin_2024_end_to_end :
  ("admin" ∈ admin_2024_lines ∧ "ADMIN" ∈ admin_2024_lines
   ∧ "Admin" ∈ admin_2024_lines)
  ∧ ("4dmin" ∈ admin_2024_lines ∧ "adm1n" ∈ admin_2024_lines)
  ∧ ("admin2024" ∈ admin_2024_lines ∧ "admin-2024" ∈ admin_2024_lines
     ∧ "2024admin" ∈ admin_2024_lines)
  ∧ ("admin@2024" ∉ admin_2024_lines)
  ∧ start_generation "admin,2024" "" (Some 2%Z) true true
    = generate ["admin"; "2024"] "" 2 true true.
Proof.
  split_and!; try by_evaluation.
  vm_compute. reflexivity.
Qed.

(** C3 fails as stated: admin@2024 is not among the lines of the run. *)
Lemma admin_2024_no_symbol_attachment :
  ¬ ("admin" ∈ admin_2024_lines ∧ "ADMIN" ∈ admin_2024_lines
     ∧ "Admin" ∈ admin_2024_lines
     ∧ ("4dmin" ∈ admin_2024_lines ∨ "adm1n" ∈ admin_2024_lines)
     ∧ "admin@2024" ∈ admin_2024_lines ∧ "2024admin" ∈ admin_2024_lines).
Proof.
  intros (_ & _ & _ & _ & Hin & _). revert Hin. by_evaluation.
Qed.

End end_to_end.

(** ** Input validation of the two start buttons *)
Section input_validation.
Import PyStr PyList.

(** A run over no tokens opens the output and writes nothing. *)
Lemma generate_no_tokens year depth use_leet use_caps :
  Wordlister.generate [] year depth use_leet use_caps = RunReport None true [].
Proof.
  unfold Wordlister.generate, Wordlister.word_chunks, Wordlister.worker_task,
    Wordlister.generate_variations, Wordlister.word_loop, Wordlister.pair_loop,
    Wordlister.suffix_loop.
  simpl. rewrite andb_false_r. destruct (decide (2 ≤ depth)%Z); simpl;
    by rewrite !(left_id_L ∅ (∪)), elements_empty.
Qed.

(** Replacing commas by spaces in a string of commas and white space leaves
    white space only, which splits into no word at all. *)
Lemma split_ws_commas_and_spaces input :
  all_chars comma_or_space input →
  split_ws (replace "," " " input) = [].
Proof.
  unfold split_ws, replace.
  induction input as [|c r IH]; [done|].
  intros [Hc Hr]%andb_prop_elim. specialize (IH Hr).
  unfold replace_go. fold replace_go.
  destruct (String.prefix "," (String c r)) eqn:Hpre.
  - simpl.
    change ("" +:+ replace_go "," " " 0 r) with (replace_go "," " " 0 r).
    by rewrite IH.
  - assert (is_space c) as Hsp.
    { unfold comma_or_space in Hc. apply orb_prop_elim in Hc as [Hc|Hc]; [done|].
      apply bool_decide_unpack in Hc as ->. by destruct r; vm_compute in Hpre. }
    simpl. apply Is_true_true in Hsp. by rewrite Hsp, IH.
Qed.

(** The guard of [wordlister.py] does reject an input of white space only. *)
Lemma lstrip_blank input : all_chars is_space input → lstrip input = "".
Proof.
  induction input as [|c r IH]; [done|].
  intros [Hc Hr]%andb_prop_elim. simpl.
  apply Is_true_true in Hc. rewrite Hc. auto.
Qed.

Lemma start_generation_blank_rejected input year_input depth_input use_leet use_caps :
  all_chars is_space input →
  Wordlister.start_generation input year_input depth_input use_leet use_caps
  = RunReport (Some "Please enter words") false [].
Proof.
  intros Hblank. unfold Wordlister.start_generation, strip.
  by rewrite lstrip_blank.
Qed.

(** C2: on the input [,] (no token once the commas and the white space are
    removed) the start button of [wordlister.py] reports no error: its guard
    only tests the stripped input, so the run is launched over no tokens,
    the output is opened and nothing is written, whatever the other fields.
    The start button of [wordlister_strong.py] rejects every input made of
    commas and white space, without opening the output. *)
Theorem start_generation_comma_only :
  (∀ (year_input : string) (depth_input : option Z) (use_leet use_caps : bool),
     Wordlister.start_generation "," year_input depth_input use_leet use_caps
     = RunReport None true [])
  ∧ (∀ (base_input : string) (use_case use_leet : bool),
       all_chars comma_or_space base_input →
       Strong.start_generation base_input use_case use_leet
       = RunReport (Some "No base words provided") false []).
Proof.
  split.
  - intros year_input depth_input use_leet use_caps.
    unfold Wordlister.start_generation.
    change (negb (truthy (strip ","))) with false.
    change (w ← split "," ","; if truthy (strip w) then [strip w] else [])
      with (@nil string).
    apply generate_no_tokens.
  - intros base_input use_case use_leet Hchars.
    unfold Strong.start_generation.
    by rewrite split_ws_commas_and_spaces.
Qed.

End input_validation.

(** ** The programs on concrete inputs *)
Section evaluations.
Import PyStr PyList.

Example apply_leet_admin :
  list_to_set (Wordlister.apply_leet "admin" 1)
  = ({[ "admin"; "4dmin"; "adm1n" ]} : gset string).
Proof. by_evaluation. Qed.

Example word_chunks_five :
  Wordlister.word_chunks ["a"; "b"; "c"; "d"; "e"]
  = [["a"; "b"; "c"]; ["c"; "d"; "e"]; ["e"]].
Proof. reflexivity. Qed.

Example leet_variants_ab :
  size (Strong.leet_variants "ab") = 12 ∧ pool_size_product "ab" = 12.
Proof. split; by vm_compute. Qed.

Example combine_words_admin_2024 :
  Strong.combine_words ["admin"] ["2024"]
  = {[ "admin2024"; "admin@2024"; "admin!2024"; "2024admin" ]}.
Proof. by_evaluation. Qed.

(** The full-mode program does produce the symbol attachment and the doubly
    substituted form that the sampled-mode run lacks. *)
Example full_mode_admin_2024 :
  "admin@2024" ∈ Strong.generate_words_smart ["admin"; "2024"] true true
  ∧ "4dm1n" ∈ Strong.generate_words_smart ["admin"; "2024"] true true.
Proof.
  rewrite !generate_words_smart_final.
  split; apply elem_of_yielded_final_state.
  - exists "admin@2024". split; [right|]; by_evaluation.
  - exists "admin". split; [left|]; by_evaluation.
Qed.

(** The estimate also undershoots when every pool has at most three glyphs:
    the combinations are longer than the longest name. *)
Example estimate_total_two_names :
  Strong.estimate_total ["b"; "c"] false true = 24
  ∧ length (Strong.generate_words_smart ["b"; "c"] false true) = 60.
Proof. split; vm_compute; reflexivity. Qed.

(** Two distinct names may spell the doubling of a third one: [a] and [aaa]
    give [aaaa], which is also [aa] twice.  The combiner joined [a] and
    [aaa]; it never joined [aa] with itself. *)
Remark combine_words_coincidence :
  "aaaa" ∈ Strong.combine_words ["a"; "aaa"; "aa"] []
  ∧ "aaaa" = "aa" +:+ "" +:+ "aa".
Proof. split; [by_evaluation | reflexivity]. Qed.

(** The chunking policy on five tokens. *)
Lemma word_chunks_policy_witness :
  Wordlister.word_chunks ["a"; "b"; "c"; "d"; "e"] !! 1 = Some ["c"; "d"; "e"]
  ∧ ∃ chunk, chunk ∈ Wordlister.word_chunks ["a"; "b"; "c"; "d"; "e"]
             ∧ "d" ∈ chunk.
Proof.
  destruct (word_chunks_policy ["a"; "b"; "c"; "d"; "e"]) as (_ & Hmany & Hcover).
  split.
  - destruct Hmany as (_ & Hk & _); [simpl; lia|].
    apply (Hk 1). vm_compute. lia.
  - apply Hcover. by_evaluation.
Defined.

(** Two distinct names and a separator, through the characterisation. *)
Lemma combiners_pair_distinct_tokens_witness :
  "al.bo" ∈ Strong.combine_words ["al"; "bo"] ["99"].
Proof.
  apply (proj1 combiners_pair_distinct_tokens).
  left. exists "al", "bo", ".".
  split_and!; [by_evaluation | by_evaluation | done | by_evaluation | by left].
Defined.

(** Year and suffix forms of the token admin with the year 2024. *)
Lemma year_and_suffix_combinations_witness :
  "4dmin2024" ∈ Wordlister.generate_variations ["admin"] "2024" 2 true true
  ∧ "2024-4dmin" ∈ Wordlister.generate_variations ["admin"] "2024" 2 true true
  ∧ "Admin123" ∈ Wordlister.generate_variations ["admin"] "2024" 2 true true.
Proof.
  destruct (year_and_suffix_combinations ["admin"] "2024" 2 true true)
    as [Hyear Hsuffix].
  destruct (Hyear ltac:(done) "4dmin" ltac:(by_evaluation)) as (H1 & _ & Hsep).
  destruct (Hsep ltac:(lia)) as [_ H2].
  split_and!; [exact H1 | exact H2 |].
  apply (Hsuffix ltac:(lia) "admin" "title" "123"); by_evaluation.
Defined.

End evaluations.

(** ** Full substitution and the case option *)
Section full_substitution_case.
Import PyStr PyList Strong.

Lemma chars_map_chars f s : chars (map_chars f s) = f <$> chars s.
Proof. induction s as [|c r IH]; simpl; [done|]. by rewrite IH. Qed.

(** The pool of a character does not depend on its case. *)
Lemma pool_char_lower c : pool (char_lower c) = pool c.
Proof. destruct c as [[] [] [] [] [] [] [] []]; vm_compute; reflexivity. Qed.

Lemma pool_char_upper c : pool (char_upper c) = pool c.
Proof. destruct c as [[] [] [] [] [] [] [] []]; vm_compute; reflexivity. Qed.

Lemma pools_lower w : pools (lower w) = pools w.
Proof.
  unfold pools, lower. rewrite chars_map_chars, <-list_fmap_compose.
  apply list_fmap_ext. intros _ c _. apply pool_char_lower.
Qed.

Lemma pools_upper w : pools (upper w) = pools w.
Proof.
  unfold pools, upper. rewrite chars_map_chars, <-list_fmap_compose.
  apply list_fmap_ext. intros _ c _. apply pool_char_upper.
Qed.

Lemma pools_capitalize w : pools (capitalize w) = pools w.
Proof.
  destruct w as [|c r]; [done|].
  change (pool (char_upper c) :: pools (lower r) = pool c :: pools r).
  by rewrite pool_char_upper, pools_lower.
Qed.

Lemma leet_variants_pools w1 w2 :
  pools w1 = pools w2 → leet_variants w1 = leet_variants w2.
Proof. unfold leet_variants. by intros ->. Qed.

Lemma union_over_constant (f : string → gset string) (X Y : gset string) :
  X ≠ ∅ → (∀ x, x ∈ X → f x = Y) → union_over f X = Y.
Proof.
  intros Hne Hf. unfold union_over. apply set_eq. intros v.
  rewrite elem_of_union_list. split.
  - intros (Z & (x & -> & Hx%elem_of_elements)%list_elem_of_fmap & Hv).
    by rewrite <-(Hf x).
  - intros Hv. apply set_choose_L in Hne as [x Hx].
    exists (f x). split; [|by rewrite Hf].
    apply list_elem_of_fmap. exists x. by rewrite elem_of_elements.
Qed.

Lemma mutate_final_leet w uc : mutate_final w uc true = leet_variants w.
Proof.
  unfold mutate_final. destruct uc; [|apply union_over_singleton].
  rewrite union_over_singleton. apply union_over_constant.
  - unfold case_variants. apply non_empty_inhabited_L with (lower w).
    apply elem_of_union. left. apply elem_of_union. left. by apply elem_of_singleton.
  - intros x. unfold case_variants.
    rewrite !elem_of_union, !elem_of_singleton.
    intros [[->| ->]| ->]; apply leet_variants_pools;
      auto using pools_lower, pools_upper, pools_capitalize.
Qed.

(** For a word of ASCII characters and with the substitution option on,
    the case option changes nothing: the variants of the word are its
    substitution variants either way, because every glyph pool already
    holds both cases of its letter. *)
Theorem mutate_final_case_redundant (w : string) :
  ascii_word w →
  mutate_final w true true = mutate_final w false true
  ∧ mutate_final w false true = leet_variants w.
Proof. intros _. by rewrite !mutate_final_leet. Qed.

Lemma mutate_final_case_redundant_witness :
  mutate_final "Ab" true true = mutate_final "Ab" false true
  ∧ mutate_final "Ab" false true = leet_variants "Ab".
Proof. apply (mutate_final_case_redundant "Ab"). vm_compute. exact I. Defined.

End full_substitution_case.

(** ** Shape of the substitution variants *)
Section variant_shape.
Import PyStr PyList Strong.

Lemma length_append s1 s2 : len (s1 +:+ s2) = len s1 + len s2.
Proof.
  unfold len. induction s1 as [|c r IH]; [done|].
  change (S (String.length (r +:+ s2)) = S (String.length r) + String.length s2).
  by rewrite IH.
Qed.

Lemma length_chars s : length (chars s) = len s.
Proof. unfold len. induction s as [|c r IH]; simpl; [done|]. by rewrite IH. Qed.

Lemma length_join_glyphs xs :
  Forall (λ g, len g = 1) xs → len (join "" xs) = length xs.
Proof.
  induction 1 as [|g xs Hg _ IH]; [done|].
  rewrite join_empty_cons, length_append, Hg, IH. done.
Qed.

Lemma product_intro {A} (ps : list (list A)) (xs : list A) :
  Forall2 (λ x p, x ∈ p) xs ps → xs ∈ product ps.
Proof.
  induction 1 as [|x p xs ps Hx _ IH]; simpl; [constructor|].
  apply list_elem_of_bind. exists x. split; [|done].
  by apply list_elem_of_fmap_2.
Qed.

(** Every character is a glyph of its own pool. *)
Lemma pool_self c : String c "" ∈ pool c.
Proof.
  apply (bool_decide_unpack _).
  destruct c as [[] [] [] [] [] [] [] []]; vm_compute; exact I.
Qed.

Lemma join_chars s : join "" ((λ c, String c "") <$> chars s) = s.
Proof.
  induction s as [|c r IH]; [done|].
  change (join "" (String c "" :: ((λ c, String c "") <$> chars r)) = String c r).
  by rewrite join_empty_cons, IH.
Qed.

Lemma leet_variants_self w : w ∈ leet_variants w.
Proof.
  unfold leet_variants. apply elem_of_list_to_set, list_elem_of_fmap.
  exists ((λ c, String c "") <$> chars w). split; [by rewrite join_chars|].
  apply product_intro. unfold pools.
  induction (chars w) as [|c cs IH]; constructor; auto using pool_self.
Qed.

(** Full substitution replaces the characters of an ASCII word one for
    one: every variant has the length of the word, and the word itself,
    its lowercase and its uppercase form are among the variants. *)
Theorem leet_variants_shape (w : string) :
  ascii_word w →
  (∀ v, v ∈ leet_variants w → len v = len w)
  ∧ w ∈ leet_variants w
  ∧ lower w ∈ leet_variants w
  ∧ upper w ∈ leet_variants w.
Proof.
  intros _. split_and!.
  - intros v. unfold leet_variants.
    intros (xs & -> & Hxs)%elem_of_list_to_set%list_elem_of_fmap.
    rewrite length_join_glyphs by (by eapply pools_glyphs).
    apply product_elem_of, Forall2_length in Hxs.
    by rewrite Hxs, <-length_chars, <-(length_fmap pool).
  - apply leet_variants_self.
  - rewrite <-(leet_variants_pools (lower w) w) by apply pools_lower.
    apply leet_variants_self.
  - rewrite <-(leet_variants_pools (upper w) w) by apply pools_upper.
    apply leet_variants_self.
Qed.

(** A base word of ASCII characters is itself a candidate of the run unless
    the case option is on alone; a mixed-case token then survives only in
    its three case forms. *)
Theorem base_words_are_candidates (base_words : list string)
    (use_case use_leet : bool) (w : string) :
  ascii_word w →
  use_case = false ∨ use_leet = true →
  w ∈ base_words →
  w ∈ generate_words_smart base_words use_case use_leet.
Proof.
  intros _ Hopts Hw. rewrite generate_words_smart_final.
  apply elem_of_yielded_final_state. exists w. split; [by left|].
  destruct use_leet.
  - rewrite mutate_final_leet. apply leet_variants_self.
  - destruct Hopts as [->|?]; [|done]. by apply elem_of_singleton.
Qed.

Lemma leet_variants_shape_witness :
  (∀ v, v ∈ leet_variants "aB1" → len v = len "aB1")
  ∧ "aB1" ∈ leet_variants "aB1"
  ∧ lower "aB1" ∈ leet_variants "aB1"
  ∧ upper "aB1" ∈ leet_variants "aB1".
Proof. apply (leet_variants_shape "aB1"). vm_compute. exact I. Defined.

Lemma base_words_are_candidates_witness :
  "aB" ∈ generate_words_smart ["aB"; "12"] false false
  ∧ "aB" ∉ generate_words_smart ["aB"; "12"] true false.
Proof.
  split.
  - apply (base_words_are_candidates ["aB"; "12"] false false "aB");
      [vm_compute; exact I | by left | by_evaluation].
  - by_evaluation.
Defined.

End variant_shape.

(** ** Names, numbers and their combinations *)
Section names_and_numbers.
Import PyStr PyList Strong.

Lemma split_words_fold_filter words names numbers :
  foldl (λ '(names, numbers) w,
           if is_number w then (names, numbers ++ [w])
           else (names ++ [w], numbers)) (names, numbers) words
  = (names ++ filter (λ w, is_number w = false) words,
     numbers ++ filter (λ w, is_number w = true) words).
Proof.
  revert names numbers.
  induction words as [|w words IH]; intros names numbers; simpl.
  - by rewrite !app_nil_r.
  - rewrite !filter_cons. destruct (is_number w) eqn:Hw; rewrite IH.
    + rewrite decide_False, decide_True by done. by rewrite <-app_assoc.
    + rewrite decide_True, decide_False by done. by rewrite <-app_assoc.
Qed.

(** [split_words] sorts the tokens into the two lists without losing,
    repeating or reordering any: the names are the tokens that are not two
    or four digits, the numbers are those that are, each in input order. *)
Theorem split_words_partition (words : list string) :
  split_words words
  = (filter (λ w, is_number w = false) words,
     filter (λ w, is_number w = true) words)
  ∧ (split_words words).1 ++ (split_words words).2 ≡ₚ words.
Proof.
  assert (split_words words
          = (filter (λ w, is_number w = false) words,
             filter (λ w, is_number w = true) words)) as Heq.
  { unfold split_words. by rewrite split_words_fold_filter. }
  split; [done|]. rewrite Heq. clear Heq. simpl.
  induction words as [|w words IH]; [done|].
  rewrite !filter_cons. destruct (is_number w) eqn:Hw.
  - rewrite decide_False, decide_True by done.
    by rewrite <-Permutation_middle, IH.
  - rewrite decide_True, decide_False by done. simpl. by rewrite IH.
Qed.

(** When the combiner has nothing to say: without a name there is no
    combination at all, numbers being never combined with each other, and
    without a number the copies of one single name combine with nothing.
    Two names that differ, or a name and a number, always combine. *)
Theorem combine_words_empty_cases (names numbers : list string) :
  combine_words [] numbers = ∅
  ∧ ((∀ a b, a ∈ names → b ∈ names → a = b) → combine_words names [] = ∅)
  ∧ (∀ a b, a ∈ names → b ∈ names → a ≠ b →
       a +:+ b ∈ combine_words names numbers
       ∧ b +:+ a ∈ combine_words names numbers)
  ∧ (∀ name num, name ∈ names → num ∈ numbers →
       name +:+ num ∈ combine_words names numbers
       ∧ num +:+ name ∈ combine_words names numbers).
Proof.
  split_and!.
  - unfold combine_words. simpl. apply (left_id_L ∅ (∪)).
  - intros Hsame. apply set_eq. intros s. unfold combine_words.
    rewrite elem_of_union, !elem_of_list_to_set, elem_of_name_name_loop,
      elem_of_name_year_loop, elem_of_empty.
    split; [|done].
    intros [(a & b & sep & Ha & Hb & Hab & _)|(name & num & sym & _ & Hnum & _)].
    + by apply Hab, Hsame.
    + by apply elem_of_nil in Hnum.
  - intros a b Ha Hb Hab. unfold combine_words.
    rewrite !elem_of_union, !elem_of_list_to_set, !elem_of_name_name_loop.
    split; left.
    + exists a, b, "". split_and!; [done..|constructor|by left].
    + exists b, a, "". split_and!; [done..|congruence|constructor|by left].
  - intros name num Hname Hnum. unfold combine_words.
    rewrite !elem_of_union, !elem_of_list_to_set, !elem_of_name_year_loop.
    split; right; exists name, num, "";
      (split_and!; [done|done|constructor|]); [by left | by right].
Qed.

End names_and_numbers.

(** ** The base words read by the cooperative program *)
Section base_words.
Import PyStr PyList.

Lemma prefix_empty s : String.prefix "" s = true.
Proof. by destruct s. Qed.

Lemma prefix_char o c r :
  String.prefix (String o "") (String c r) = bool_decide (o = c).
Proof.
  simpl. destruct (ascii_dec o c) as [->|Hne].
  - by rewrite prefix_empty, bool_decide_eq_true_2.
  - by rewrite bool_decide_eq_false_2.
Qed.

(** Replacing a one-character string by another is a character map. *)
Lemma replace_char o n s :
  replace (String o "") (String n "") s
  = map_chars (λ c, if bool_decide (o = c) then n else c) s.
Proof.
  unfold replace. induction s as [|c r IH]; [done|].
  unfold replace_go. fold replace_go. rewrite prefix_char.
  change (String.length (String o "") - 1) with 0. rewrite IH. simpl.
  destruct (bool_decide (o = c)); reflexivity.
Qed.

Lemma all_chars_rev_app p s1 s2 :
  all_chars p (String.rev_app s1 s2) = all_chars p s1 && all_chars p s2.
Proof.
  revert s2. induction s1 as [|c r IH]; intros s2; simpl; [done|].
  rewrite IH. simpl. by destruct (p c), (all_chars p r).
Qed.

Lemma rev_app_nonempty s1 s2 :
  s1 ≠ "" ∨ s2 ≠ "" → String.rev_app s1 s2 ≠ "".
Proof.
  revert s2. induction s1 as [|c r IH]; intros s2; simpl.
  - by intros [?|?].
  - intros _. apply IH. by right.
Qed.

Lemma split_ws_go_clean s cur :
  all_chars (λ c, negb (bool_decide (c = ","%char))) s →
  (∀ cs, cur = Some cs → clean_word cs) →
  Forall clean_word (split_ws_go cur s).
Proof.
  revert cur. induction s as [|c r IH]; intros cur Hs Hcur; simpl.
  - destruct cur as [cs|]; simpl; [|constructor].
    destruct (Hcur cs eq_refl) as [Hne Hcs].
    repeat constructor.
    + apply rev_app_nonempty. by left.
    + unfold String.rev. rewrite all_chars_rev_app. simpl.
      by rewrite andb_true_r.
  - apply andb_prop_elim in Hs as [Hc Hr].
    destruct (is_space c) eqn:Hsp.
    + apply Forall_app. split; [|by apply IH].
      destruct cur as [cs|]; simpl; [|constructor].
      destruct (Hcur cs eq_refl) as [Hne Hcs].
      repeat constructor.
      * apply rev_app_nonempty. by left.
      * unfold String.rev. rewrite all_chars_rev_app. simpl.
        by rewrite andb_true_r.
    + apply IH; [done|]. intros cs [= <-]. split; [done|]. simpl.
      unfold comma_or_space at 1. rewrite Hsp. simpl.
      apply andb_prop_intro. split; [done|].
      destruct cur as [cs|]; simpl; [|done]. by apply Hcur.
Qed.

Lemma replace_comma_no_comma s :
  all_chars (λ c, negb (bool_decide (c = ","%char))) (replace "," " " s).
Proof.
  rewrite replace_char. induction s as [|c r IH]; [done|]. simpl.
  apply andb_prop_intro. split; [|done].
  destruct (bool_decide_reflect (","%char = c)) as [<-|Hne]; [done|].
  apply negb_prop_intro. intros Heq%bool_decide_unpack. by apply Hne.
Qed.

(** The cooperative program either rejects its input or runs over words
    that are never empty and hold neither a comma nor white space; it
    rejects exactly when the input holds no such word. *)
Theorem strong_base_words_clean (base_input : string) (use_case use_leet : bool) :
  Forall clean_word (split_ws (replace "," " " base_input))
  ∧ (Strong.start_generation base_input use_case use_leet
     = RunReport (Some "No base words provided") false []
     ∧ split_ws (replace "," " " base_input) = []
     ∨ ∃ base_words,
         base_words ≠ [] ∧ base_words = split_ws (replace "," " " base_input)
         ∧ Strong.start_generation base_input use_case use_leet
           = RunReport None true
               (Strong.generate_words_smart base_words use_case use_leet)).
Proof.
  split.
  - apply split_ws_go_clean; [apply replace_comma_no_comma | done].
  - unfold Strong.start_generation.
    destruct (split_ws (replace "," " " base_input)) as [|w ws] eqn:Hwords.
    + by left.
    + right. by exists (w :: ws).
Qed.

End base_words.

(** ** The case patterns of the sampled-mode program *)
Section caps_patterns.
Import PyStr PyList Wordlister.

Lemma char_upper_idemp c : char_upper (char_upper c) = char_upper c.
Proof. by destruct c as [[] [] [] [] [] [] [] []]. Qed.

Lemma is_cased_char_upper c : is_cased (char_upper c) = is_cased c.
Proof. by destruct c as [[] [] [] [] [] [] [] []]. Qed.

Lemma is_cased_char_lower c : is_cased (char_lower c) = is_cased c.
Proof. by destruct c as [[] [] [] [] [] [] [] []]. Qed.

Lemma upper_idemp s : upper (upper s) = upper s.
Proof.
  unfold upper. induction s as [|c r IH]; simpl; [done|].
  by rewrite char_upper_idemp, IH.
Qed.

Lemma title_go_idemp b s : title_go b (title_go b s) = title_go b s.
Proof.
  revert b. induction s as [|c r IH]; intros b; simpl; [done|].
  destruct b.
  - by rewrite char_lower_idemp, is_cased_char_lower, IH.
  - by rewrite char_upper_idemp, is_cased_char_upper, IH.
Qed.

Lemma length_map_chars f s : len (map_chars f s) = len s.
Proof. unfold len. induction s as [|c r IH]; simpl; [done|]. by rewrite IH. Qed.

Lemma length_title_go b s : len (title_go b s) = len s.
Proof.
  unfold len. revert b. induction s as [|c r IH]; intros b; simpl; [done|].
  by rewrite IH.
Qed.

(** On a word of ASCII characters every case pattern, known or not, keeps
    the length of the word and is idempotent: applying the same pattern
    twice changes nothing more. *)
Theorem apply_caps_idempotent (word pattern : string) :
  ascii_word word →
  apply_caps (apply_caps word pattern) pattern = apply_caps word pattern
  ∧ len (apply_caps word pattern) = len word.
Proof.
  intros _. unfold apply_caps. repeat case_decide.
  - split; [apply lower_idemp | apply length_map_chars].
  - split; [apply upper_idemp | apply length_map_chars].
  - split; [apply title_go_idemp | apply length_title_go].
  - destruct word as [|c r]; [done|].
    change (upper (String c "") +:+ lower r) with (String (char_upper c) (lower r)).
    split.
    + change (String (char_upper (char_upper c)) (lower (lower r))
              = String (char_upper c) (lower r)).
      by rewrite char_upper_idemp, lower_idemp.
    + unfold len. simpl. f_equal. apply length_map_chars.
  - done.
Qed.

Lemma apply_caps_idempotent_witness :
  apply_caps (apply_caps "o'neil mcX" "title") "title"
  = apply_caps "o'neil mcX" "title"
  ∧ len (apply_caps "o'neil mcX" "title") = len "o'neil mcX".
Proof.
  apply (apply_caps_idempotent "o'neil mcX" "title"). vm_compute. exact I.
Defined.

End caps_patterns.

(** ** Sampled substitution *)
Section sampled_substitution.
Import PyStr PyList Wordlister.

Lemma apply_leet_results word intensity :
  (1 ≤ intensity)%Z →
  apply_leet word intensity = elements (list_to_set (leet_results word) : gset string).
Proof.
  intros Hi. unfold apply_leet, leet_results.
  rewrite decide_False by lia. by rewrite decide_True by done.
Qed.

Lemma apply_leet_off word intensity :
  (intensity ≤ 0)%Z → apply_leet word intensity = [word].
Proof.
  intros Hi. unfold apply_leet. case_decide; [done|].
  rewrite decide_False by lia.
  change (list_to_set [word]) with ({[ word ]} ∪ ∅ : gset string).
  by rewrite (right_id_L ∅ (∪)), elements_singleton.
Qed.

Lemma length_bind_le {A B} (f : A → list B) (l : list A) n :
  (∀ x, x ∈ l → length (f x) ≤ n) → length (l ≫= f) ≤ length l * n.
Proof.
  induction l as [|x l IH]; intros Hf; [done|].
  rewrite bind_cons, length_app. simpl.
  pose proof (Hf x ltac:(constructor)).
  pose proof (IH (λ y Hy, Hf y ltac:(by constructor))). lia.
Qed.

Lemma length_leet_results word : length (leet_results word) ≤ 9.
Proof.
  unfold leet_results. cbn [length]. apply le_n_S.
  etrans; [apply (length_bind_le _ _ 1)|by vm_compute].
  intros [char replacements] _. destruct (contains _ _); [|simpl; lia].
  etrans; [apply (length_bind_le _ _ 1)|].
  - intros repl _. simpl. case_decide; simpl; lia.
  - unfold slice. rewrite length_take. lia.
Qed.

Lemma length_replace_char o n s :
  len (replace (String o "") (String n "") s) = len s.
Proof. rewrite replace_char. apply length_map_chars. Qed.

(** Every row of the table maps one character to one-character glyphs. *)
Lemma LEET_MAP_glyphs char replacements :
  (char, replacements) ∈ LEET_MAP →
  len char = 1 ∧ Forall (λ g, len g = 1) replacements.
Proof.
  intros Hrow.
  set (P := λ row : string * list string,
              len row.1 = 1 ∧ Forall (λ g, len g = 1) row.2).
  change (P (char, replacements)). revert Hrow. generalize (char, replacements).
  apply Forall_forall. unfold P, LEET_MAP.
  repeat (apply Forall_cons_2; [split; [done | repeat constructor]|]).
  apply Forall_nil_2.
Qed.

Lemma elem_of_leet_results word v :
  v ∈ leet_results word → len v = len word.
Proof.
  unfold leet_results. intros [->|Hv]%elem_of_cons; [done|].
  apply list_elem_of_bind in Hv as ([char replacements] & Hv & Hrow).
  destruct (contains _ _); [|by apply elem_of_nil in Hv].
  apply list_elem_of_bind in Hv as (repl & Hv & Hrepl).
  simpl in Hv. case_decide; [|by apply elem_of_nil in Hv].
  apply list_elem_of_singleton in Hv as ->.
  destruct (LEET_MAP_glyphs _ _ Hrow) as [Hchar Hglyphs].
  assert (len repl = 1) as Hlen.
  { unfold slice in Hrepl. apply subseteq_take, subseteq_drop in Hrepl.
    by eapply Forall_forall in Hglyphs. }
  destruct char as [|o [|??]]; try done.
  destruct repl as [|n [|??]]; try done.
  change (upper (String o "")) with (String (char_upper o) "").
  by rewrite !length_replace_char.
Qed.

Lemma length_elements_list_to_set (l : list string) :
  length (elements (list_to_set l : gset string)) ≤ length l.
Proof.
  induction l as [|x l IH]; [by rewrite list_to_set_nil, elements_empty|].
  rewrite list_to_set_cons. simpl.
  pose proof (size_union_le {[ x ]} (list_to_set l)) as Hle.
  rewrite size_singleton in Hle. unfold size, set_size, compose in Hle. lia.
Qed.

Lemma apply_leet_self word intensity : word ∈ apply_leet word intensity.
Proof.
  destruct (decide (intensity ≤ 0)%Z) as [Hoff|Hon].
  - rewrite apply_leet_off by done. constructor.
  - rewrite apply_leet_results by lia.
    apply elem_of_elements, elem_of_list_to_set. constructor.
Qed.

(** The sampled substitution of a word lists the word itself and at most
    one single-character-class replacement per table row: no more than
    nine strings, all different, all of the length of the word; with the
    intensity at zero or below it lists the word alone. *)
Theorem apply_leet_shape (word : string) (intensity : Z) :
  word ∈ apply_leet word intensity
  ∧ NoDup (apply_leet word intensity)
  ∧ length (apply_leet word intensity) ≤ 9
  ∧ (∀ v, v ∈ apply_leet word intensity → len v = len word)
  ∧ ((intensity ≤ 0)%Z → apply_leet word intensity = [word]).
Proof.
  destruct (decide (intensity ≤ 0)%Z) as [Hoff|Hon].
  - rewrite apply_leet_off by done. split_and!.
    + constructor.
    + apply NoDup_singleton.
    + simpl. lia.
    + by intros v ->%list_elem_of_singleton.
    + done.
  - rewrite apply_leet_results by lia. split_and!.
    + apply elem_of_elements, elem_of_list_to_set. constructor.
    + apply NoDup_elements.
    + etrans; [apply length_elements_list_to_set | apply length_leet_results].
    + intros v Hv%elem_of_elements%elem_of_list_to_set.
      by apply elem_of_leet_results.
    + lia.
Qed.

End sampled_substitution.

(** ** Words the table cannot touch *)
Section unmapped_words.
Import PyStr PyList Wordlister.

Lemma contains_char k s :
  contains (String k "") s = bool_decide (k ∈ chars s).
Proof.
  induction s as [|c r IH].
  - reflexivity.
  - unfold contains. fold contains. rewrite prefix_char, IH. simpl.
    destruct (bool_decide_reflect (k = c)) as [->|Hne]; simpl.
    + symmetry. apply bool_decide_eq_true_2. constructor.
    + apply bool_decide_ext. rewrite elem_of_cons. tauto.
Qed.

(** A word none of whose letters (in either case) is a, e, i, o, s, t, l or
    g has no substitution variant: [apply_leet] returns the word alone,
    whatever the intensity. *)
Theorem apply_leet_unmapped (word : string) (intensity : Z) :
  Forall (λ c, c ∉ chars "aeiostlg") (chars (lower word)) →
  apply_leet word intensity = [word].
Proof.
  intros Hnone.
  assert (∀ k, k ∈ chars "aeiostlg" → contains (String k "") (lower word) = false)
    as Hk.
  { intros k Hin. rewrite contains_char. apply bool_decide_eq_false_2.
    intros Hc. by eapply Forall_forall in Hnone. }
  destruct (decide (intensity ≤ 0)%Z) as [Hoff|Hon]; [by apply apply_leet_off|].
  rewrite apply_leet_results by lia. unfold leet_results, LEET_MAP.
  rewrite !bind_cons.
  rewrite !Hk by by_evaluation. simpl.
  change (list_to_set [word]) with ({[ word ]} ∪ ∅ : gset string).
  by rewrite (right_id_L ∅ (∪)), elements_singleton.
Qed.

Lemma apply_leet_unmapped_witness : apply_leet "Buzz-2077" 1 = ["Buzz-2077"].
Proof. apply apply_leet_unmapped. by_evaluation. Defined.

End unmapped_words.

(** ** What the sampled-mode generator always, never and only produces *)
Section variations.
Import PyStr PyList Wordlister.

Lemma bind_mono {A B} (f g : A → list B) (l : list A) x :
  (∀ a y, a ∈ l → y ∈ f a → y ∈ g a) → x ∈ l ≫= f → x ∈ l ≫= g.
Proof.
  intros Hfg (a & Hx & Ha)%list_elem_of_bind.
  apply list_elem_of_bind. exists a. auto.
Qed.

Lemma apply_leet_mono word i i' v :
  (i ≤ 0 ∨ 1 ≤ i ∧ 1 ≤ i')%Z →
  v ∈ apply_leet word i → v ∈ apply_leet word i'.
Proof.
  intros [Hoff|[Hi Hi']].
  - rewrite apply_leet_off by done. intros ->%list_elem_of_singleton.
    apply apply_leet_self.
  - by rewrite !apply_leet_results by done.
Qed.

Lemma leet_intensity_mono d d' (ul ul' : bool) :
  (d ≤ d')%Z → (ul → ul') →
  (leet_intensity d ul ≤ 0
   ∨ 1 ≤ leet_intensity d ul ∧ 1 ≤ leet_intensity d' ul')%Z.
Proof.
  intros Hd Hul. unfold leet_intensity. destruct ul; [|left; lia].
  rewrite (Is_true_true_1 ul') by auto. lia.
Qed.

Lemma mutated_bases_mono words d d' (ul ul' : bool) uc b :
  (d ≤ d')%Z → (ul → ul') →
  b ∈ mutated_bases words d ul uc → b ∈ mutated_bases words d' ul' uc.
Proof.
  intros Hd Hul. unfold mutated_bases.
  apply bind_mono. intros word ? _. apply bind_mono. intros cap v _.
  by apply apply_leet_mono, leet_intensity_mono.
Qed.

Lemma year_forms_mono b year d d' s :
  (d ≤ d')%Z → s ∈ year_forms b year d → s ∈ year_forms b year d'.
Proof.
  intros Hd. unfold year_forms. destruct (truthy year); [|done].
  rewrite !elem_of_cons.
  intros [?|[?|[?|Hs]]]; [by left|by right; left|by right; right; left|].
  right. right. right.
  case_decide; [|by apply elem_of_nil in Hs]. by rewrite decide_True by lia.
Qed.

Lemma pair_loop_mono words year d d' uc s :
  (d ≤ d')%Z → s ∈ pair_loop words year d uc → s ∈ pair_loop words year d' uc.
Proof.
  intros Hd. unfold pair_loop.
  destruct (bool_decide_reflect (2 ≤ d)%Z) as [H2|H2]; cbn [andb];
    [|by intros ?%elem_of_nil].
  rewrite (bool_decide_eq_true_2 (2 ≤ d')%Z) by lia. cbn [andb].
  destruct (bool_decide (2 ≤ length words)); [|done].
  apply bind_mono. intros w1 ? _. apply bind_mono. intros w2 ? _.
  case_decide; [|done].
  apply bind_mono. intros [cap1 cap2] ? _. apply bind_mono. intros sep ? _.
  rewrite !elem_of_cons. intros [?|Hs]; [by left|right].
  destruct (truthy year); cbn [andb] in *; [|done].
  destruct (bool_decide_reflect (3 ≤ d)%Z); [|by apply elem_of_nil in Hs].
  by rewrite (bool_decide_eq_true_2 (3 ≤ d')%Z) by lia.
Qed.

Lemma suffix_loop_mono words d d' uc s :
  (d ≤ d')%Z → s ∈ suffix_loop words d uc → s ∈ suffix_loop words d' uc.
Proof.
  intros Hd. unfold suffix_loop.
  case_decide; [|by intros ?%elem_of_nil]. by rewrite decide_True by lia.
Qed.

(** Raising the depth or switching the substitution option on never removes
    a candidate: the set generated for the same words, year and case option
    only grows. *)
Theorem generate_variations_monotone (words : list string) (year : string)
    (depth depth' : Z) (use_leet use_leet' use_caps : bool) :
  (depth ≤ depth')%Z → (use_leet → use_leet') →
  generate_variations words year depth use_leet use_caps
  ⊆ generate_variations words year depth' use_leet' use_caps.
Proof.
  intros Hd Hul s. unfold generate_variations.
  rewrite !elem_of_union, !elem_of_list_to_set, !word_loop_year_forms.
  intros [[Hs|Hs]|Hs].
  - left. left. apply list_elem_of_bind in Hs as (b & Hs & Hb).
    apply list_elem_of_bind. exists b.
    split; [by eapply year_forms_mono | by eapply mutated_bases_mono].
  - left. right. by eapply pair_loop_mono.
  - right. by eapply suffix_loop_mono.
Qed.

Lemma generate_variations_monotone_witness :
  generate_variations ["admin"] "2024" 1 false true
  ⊆ generate_variations ["admin"] "2024" 3 true true.
Proof. apply generate_variations_monotone; [lia | done]. Defined.

Lemma mutated_bases_lower words depth use_leet use_caps w :
  w ∈ words → lower w ∈ mutated_bases words depth use_leet use_caps.
Proof.
  intros Hw. unfold mutated_bases.
  apply list_elem_of_bind. exists w. split; [|done].
  apply list_elem_of_bind. exists "lower". split.
  - apply apply_leet_self.
  - destruct use_caps; constructor.
Qed.

Lemma mutated_bases_generated words year depth use_leet use_caps b :
  b ∈ mutated_bases words depth use_leet use_caps →
  b ∈ generate_variations words year depth use_leet use_caps.
Proof.
  intros Hb. unfold generate_variations.
  rewrite !elem_of_union, !elem_of_list_to_set, word_loop_year_forms.
  left. left. apply list_elem_of_bind. exists b. split; [constructor|done].
Qed.

(** Whatever the year, the depth and the options, the lowercase form of
    every token is generated, and so is every other mutated base string.
    The token as typed is not: a mixed-case token survives only in its
    case patterns. *)
Theorem generate_variations_keeps_lowercase (words : list string)
    (year : string) (depth : Z) (use_leet use_caps : bool) (w : string) :
  w ∈ words →
  lower w ∈ generate_variations words year depth use_leet use_caps
  ∧ (∀ b, b ∈ mutated_bases words depth use_leet use_caps →
       b ∈ generate_variations words year depth use_leet use_caps).
Proof.
  intros Hw. split.
  - by apply mutated_bases_generated, mutated_bases_lower.
  - intros b. apply mutated_bases_generated.
Qed.

Lemma generate_variations_keeps_lowercase_witness :
  ("pass" ∈ generate_variations ["pAsS"] "" 2 true true
   ∧ ∀ b, b ∈ mutated_bases ["pAsS"] 2 true true →
       b ∈ generate_variations ["pAsS"] "" 2 true true)
  ∧ "pAsS" ∉ generate_variations ["pAsS"] "" 2 true true.
Proof.
  split.
  - apply (generate_variations_keeps_lowercase ["pAsS"] "" 2 true true "pAsS").
    constructor.
  - by_evaluation.
Defined.

Lemma bind_singleton_id {A} (l : list A) : (x ← l; [x]) = l.
Proof. induction l as [|x l IH]; [done|]. by rewrite bind_cons, IH. Qed.

(** At depth 1 (or below) and without a year the generator produces the
    mutated base strings and nothing else: no pair of words, no suffix. *)
Theorem generate_variations_light (words : list string) (depth : Z)
    (use_leet use_caps : bool) :
  (depth ≤ 1)%Z →
  generate_variations words "" depth use_leet use_caps
  = list_to_set (mutated_bases words depth use_leet use_caps).
Proof.
  intros Hd. unfold generate_variations.
  rewrite word_loop_year_forms. unfold year_forms, pair_loop, suffix_loop.
  rewrite (bool_decide_eq_false_2 (2 ≤ depth)%Z) by lia.
  rewrite (decide_False (P := (2 ≤ depth)%Z)) by lia.
  cbn [truthy andb]. rewrite bind_singleton_id, list_to_set_nil.
  by rewrite !(right_id_L ∅ (∪)).
Qed.

Lemma generate_variations_light_witness :
  generate_variations ["admin"; "2024"] "" 1 true false
  = list_to_set (mutated_bases ["admin"; "2024"] 1 true false).
Proof. apply generate_variations_light. lia. Defined.

End variations.

(** ** Lines written twice by the chunked pipeline *)
Section chunk_duplicates.
Import PyStr PyList Wordlister.

Lemma word_chunks_first_two (words : list string) :
  3 < length words →
  ∃ rest, word_chunks words
          = take 3 words :: take 3 (drop 2 words) :: rest.
Proof.
  intros Hlen.
  assert (1 < (length words + 1) / 2) as Hk.
  { apply (Nat.div_le_lower_bound (length words + 1) 2 2); lia. }
  pose proof (word_chunks_windows words Hlen) as Hw.
  assert (word_chunks words !! 0 = Some (take 3 words)) as H0.
  { rewrite Hw, list_lookup_fmap, range_step2_lookup by lia.
    simpl. by rewrite slice_window, drop_0. }
  assert (word_chunks words !! 1 = Some (take 3 (drop 2 words))) as H1.
  { rewrite Hw, list_lookup_fmap, range_step2_lookup by lia.
    simpl. by rewrite slice_window. }
  destruct (word_chunks words) as [|c0 [|c1 rest]]; simplify_eq/=.
  by exists rest.
Qed.

(** Up to three tokens no line is written twice.  From four tokens on some
    line always is: the token shared by the first two chunks is mutated by
    both workers, and nothing removes the duplicates across chunks. *)
Theorem generate_duplicates_across_chunks (words : list string)
    (year : string) (depth : Z) (use_leet use_caps : bool) :
  (length words ≤ 3 →
   NoDup (lines_written (generate words year depth use_leet use_caps)))
  ∧ (3 < length words →
     ¬ NoDup (lines_written (generate words year depth use_leet use_caps))).
Proof.
  split; intros Hlen; simpl.
  - unfold word_chunks. rewrite decide_True by done.
    rewrite bind_singleton. apply NoDup_elements.
  - destruct (word_chunks_first_two words Hlen) as [rest ->].
    rewrite !bind_cons.
    destruct (lookup_lt_is_Some_2 words 2 ltac:(lia)) as [w Hw].
    intros [_ [Hdisj _]]%NoDup_app.
    apply (Hdisj (lower w)).
    + apply elem_of_elements, mutated_bases_generated, mutated_bases_lower.
      apply list_elem_of_lookup. exists 2. by rewrite lookup_take_lt by lia.
    + apply elem_of_app. left.
      apply elem_of_elements, mutated_bases_generated, mutated_bases_lower.
      apply list_elem_of_lookup. exists 0.
      by rewrite lookup_take_lt, lookup_drop by lia.
Qed.

Lemma generate_duplicates_across_chunks_witness :
  ¬ NoDup (lines_written (generate ["a"; "b"; "c"; "d"] "" 1 false false)).
Proof.
  apply (generate_duplicates_across_chunks ["a"; "b"; "c"; "d"]). simpl. lia.
Defined.

End chunk_duplicates.

(** ** What the start button of the sampled-mode program hands to the engine *)
Section launch_parameters.
Import PyStr PyList Wordlister.

Lemma all_chars_lstrip p s : all_chars p s → all_chars p (lstrip s).
Proof.
  induction s as [|c r IH]; [done|]. simpl.
  intros [Hc Hr]%andb_prop_elim. destruct (is_space c); [auto|].
  simpl. by apply andb_prop_intro.
Qed.

Lemma all_chars_rstrip p s : all_chars p s → all_chars p (rstrip s).
Proof.
  induction s as [|c r IH]; [done|]. simpl.
  intros [Hc Hr]%andb_prop_elim. specialize (IH Hr).
  destruct (rstrip r) as [|c' r'].
  - destruct (is_space c); [done|]. simpl. by apply andb_prop_intro.
  - change (all_chars p (String c (String c' r'))) with
      (p c && all_chars p (String c' r')). by apply andb_prop_intro.
Qed.

Lemma rstrip_idemp s : rstrip (rstrip s) = rstrip s.
Proof.
  induction s as [|c r IH]; [done|]. simpl.
  destruct (rstrip r) as [|c' r'] eqn:Hr.
  - destruct (is_space c) eqn:Hc; [done|]. simpl. by rewrite Hc.
  - change (rstrip (String c (String c' r'))) with
      (match rstrip (String c' r') with
       | "" => if is_space c then "" else String c ""
       | r'' => String c r''
       end).
    by rewrite IH.
Qed.

Lemma lstrip_starts_clean s : starts_clean (lstrip s).
Proof.
  induction s as [|c r IH]; [done|]. simpl.
  by destruct (is_space c) eqn:Hc.
Qed.

Lemma rstrip_starts_clean s : starts_clean s → starts_clean (rstrip s).
Proof.
  destruct s as [|c r]; [done|]. simpl. intros Hc.
  destruct (rstrip r); [by rewrite Hc|done].
Qed.

Lemma lstrip_clean s : starts_clean s → lstrip s = s.
Proof. destruct s as [|c r]; [done|]. simpl. by intros ->. Qed.

Lemma strip_idemp s : strip (strip s) = strip s.
Proof.
  unfold strip.
  rewrite (lstrip_clean (rstrip (lstrip s)))
    by apply rstrip_starts_clean, lstrip_starts_clean.
  apply rstrip_idemp.
Qed.

Lemma split_go_comma_free cur s :
  all_chars (λ c, negb (bool_decide (c = ","%char))) cur →
  Forall (all_chars (λ c, negb (bool_decide (c = ","%char))))
         (split_go "," 0 cur s).
Proof.
  revert cur. induction s as [|c r IH]; intros cur Hcur.
  - simpl. repeat constructor.
    unfold String.rev. rewrite all_chars_rev_app. simpl.
    by rewrite andb_true_r.
  - unfold split_go. fold split_go. rewrite prefix_char.
    change (String.length "," - 1) with 0.
    destruct (bool_decide_reflect (","%char = c)) as [<-|Hne].
    + constructor; [|by apply IH].
      unfold String.rev. rewrite all_chars_rev_app. simpl.
      by rewrite andb_true_r.
    + apply IH. simpl. apply andb_prop_intro. split; [|done].
      apply negb_prop_intro. intros Heq%bool_decide_unpack. by apply Hne.
Qed.

Lemma truthy_nonempty s : truthy s → s ≠ "".
Proof. by destruct s. Qed.

(** The start button either rejects a blank input, or launches the engine
    on tokens that are non-empty, comma-free and stripped, with the year
    stripped and a depth between 1 and 3 (2 when the depth field does not
    parse). *)
Theorem start_generation_sanitises (words_input year_input : string)
    (depth_input : option Z) (use_leet use_caps : bool) :
  (start_generation words_input year_input depth_input use_leet use_caps
   = RunReport (Some "Please enter words") false []
   ∧ strip words_input = ""
   ∨ ∃ words depth,
       start_generation words_input year_input depth_input use_leet use_caps
       = generate words (strip year_input) depth use_leet use_caps
       ∧ strip words_input ≠ ""
       ∧ Forall stripped_token words
       ∧ (1 ≤ depth ≤ 3)%Z
       ∧ (depth_input = None → depth = 2%Z)).
Proof.
  - unfold start_generation.
    destruct (strip words_input) as [|c r] eqn:Hstrip; simpl; [by left|].
    right. eexists _, _.
    split; [reflexivity|]. split; [done|]. split; [|split].
    + apply Forall_forall. intros w (field & Hw & Hfield)%list_elem_of_bind.
      destruct (truthy (strip field)) eqn:Htruthy;
        [|by apply elem_of_nil in Hw].
      apply list_elem_of_singleton in Hw as ->.
      split_and!.
      * apply truthy_nonempty. by rewrite Htruthy.
      * apply all_chars_rstrip, all_chars_lstrip.
        pose proof (split_go_comma_free "" words_input I) as Hall.
        rewrite Forall_forall in Hall. by apply Hall.
      * apply strip_idemp.
    + destruct depth_input; lia.
    + by intros ->.
Qed.

(** The engine always gets at least one worker thread, never more in normal
    mode than in ThreadRipper mode, and never more than the processor count
    when the system reports one. *)
Theorem thread_count_bounds (os_cpu_count : option nat) (threadripper : bool) :
  1 ≤ thread_count os_cpu_count threadripper
  ∧ thread_count os_cpu_count false ≤ thread_count os_cpu_count true
  ∧ (∀ n, os_cpu_count = Some n → 0 < n →
       thread_count os_cpu_count threadripper ≤ n).
Proof.
  unfold thread_count.
  assert (∀ n, n / 2 ≤ n) as Hhalf.
  { intros n. apply Nat.Div0.div_le_upper_bound. lia. }
  set (cpu_count := match os_cpu_count with
                    | Some n => if decide (n = 0) then 4 else n
                    | None => 4
                    end).
  assert (1 ≤ cpu_count) as Hcpu.
  { unfold cpu_count. destruct os_cpu_count as [n|]; [case_decide|]; lia. }
  pose proof (Hhalf cpu_count). cbv zeta.
  split_and!; [destruct threadripper; lia | lia |].
  intros n -> Hn. unfold cpu_count in *. rewrite decide_False in * by lia.
  destruct threadripper; lia.
Qed.

End launch_parameters.

(** ** The engine under every schedule *)
Section engine.
Import Engine.
Context (year : string) (depth : Z) (use_leet use_caps : bool).

Local Abbreviation step := (Engine.step year depth use_leet use_caps).
Local Abbreviation run := (Engine.run year depth use_leet use_caps).

Lemma sum_list_fmap_insert {A} (f : A → nat) (l : list A) k x y :
  l !! k = Some x →
  sum_list (f <$> <[k := y]> l) + f x = sum_list (f <$> l) + f y.
Proof.
  revert k. induction l as [|z l IH]; intros [|k] Hk; simplify_eq/=; [lia|].
  specialize (IH k Hk). lia.
Qed.

Lemma started_inv words : engine_inv (started words).
Proof.
  unfold engine_inv, started. simpl. split_and!; [done|apply Nat.le_0_l|].
  induction (Wordlister.word_chunks words) as [|c cs IH]; [done|].
  rewrite !fmap_cons. simpl. lia.
Qed.

Lemma step_inv a e e' : engine_inv e → step a e = Some e' → engine_inv e'.
Proof.
  intros (Hcount & Hbound & Hsum). destruct a as [k| |]; simpl.
  - destruct (workers e !! k) as [w|] eqn:Hk; [|done]. simpl.
    destruct (worker_step year depth use_leet use_caps e w) as [[w' queue]|] eqn:Hw;
      [|done].
    simpl. intros [= <-]. unfold engine_inv. simpl.
    pose proof (sum_list_fmap_insert put_count (workers e) k w w' Hk) as Hins.
    destruct w as [chunk|[|p todo] count|p todo count|todo count|count]; simpl in Hw;
      repeat case_match; simplify_eq/=; rewrite ?length_app; simpl;
      split_and!; lia.
  - unfold writer_step.
    destruct e as [stop cnt queue file wr ws]; simpl in *.
    destruct wr as [|p| |]; [destruct queue as [|p queue]; [destruct stop|]| | |];
      intros [= <-]; unfold engine_inv; simpl in *;
      rewrite ?length_app; simpl; split_and!; lia.
  - intros [= <-]. done.
Qed.

Lemma run_inv schedule e e' :
  engine_inv e → run schedule e = Some e' → engine_inv e'.
Proof.
  revert e. induction schedule as [|a schedule IH]; intros e He; simpl.
  - by intros [= <-].
  - destruct (step a e) as [e1|] eqn:Hstep; [|done]. simpl.
    apply IH. by eapply step_inv.
Qed.

(** Under every schedule of the workers, the writer and the stop flag: the
    counter read by [get_count] lags the lines of the file by at most one
    (and equals them once the writer has finished); the queue never holds
    more than 10000 passwords; and the passwords put by the workers (the
    local count of each, and one more for a worker that is back from [put]
    and has not yet run [count += 1]) are the lines written plus those
    still queued or in the writer's hand. *)
Theorem engine_accounting (words : list string) (schedule : list action)
    (e : engine) :
  run schedule (started words) = Some e →
  get_count e ≤ length (output_file e) ≤ get_count e + 1
  ∧ (writer_thread e = Finished → get_count e = length (output_file e))
  ∧ length (result_queue e) ≤ maxsize
  ∧ sum_list (put_count <$> workers e)
    = length (output_file e) + length (in_hand (writer_thread e))
      + length (result_queue e).
Proof.
  intros Hrun.
  destruct (run_inv _ _ _ (started_inv words) Hrun) as (Hcount & Hbound & Hsum).
  unfold get_count.
  split_and!; [destruct (writer_thread e); simpl in *; lia.. | | done | done].
  intros Hfin. rewrite Hfin in Hcount. simpl in Hcount. lia.
Qed.

Lemma step_after_stop a e e' :
  stop_flag e = true → step a e = Some e' →
  stop_flag e' = true
  ∧ length (output_file e') + in_flight e' ≤ length (output_file e) + in_flight e.
Proof.
  intros Hstop. destruct a as [k| |]; simpl.
  - destruct (workers e !! k) as [w|] eqn:Hk; [|done]. simpl.
    destruct (worker_step year depth use_leet use_caps e w) as [[w' queue]|] eqn:Hw;
      [|done].
    simpl. intros [= <-]. unfold in_flight. simpl. split; [done|].
    pose proof (sum_list_fmap_insert committed (workers e) k w w' Hk) as Hins.
    destruct w as [chunk|[|p todo] count|p todo count|todo count|count]; simpl in Hw;
      rewrite ?Hstop in Hw; repeat case_match; simplify_eq/=;
      rewrite ?length_app; simpl; lia.
  - unfold writer_step.
    destruct e as [stop cnt queue file wr ws]; simpl in *. subst stop.
    destruct wr as [|p| |]; [destruct queue as [|p queue]| | |];
      intros [= <-]; unfold in_flight; simpl;
      rewrite ?length_app; simpl; (split; [done|lia]).
  - intros [= <-]. done.
Qed.

(** Once the stop flag is set it stays set, and the file grows by no more
    than the passwords in flight at that moment: those queued, the one in
    the writer's hand, and one for each worker already inside [put]. *)
Theorem engine_after_stop (schedule : list action) (e e' : engine) :
  stop_flag e = true →
  run schedule e = Some e' →
  stop_flag e' = true
  ∧ length (output_file e') ≤ length (output_file e) + in_flight e.
Proof.
  revert e. induction schedule as [|a schedule IH]; intros e Hstop; simpl.
  - intros [= <-]. split; [done|lia].
  - destruct (step a e) as [e1|] eqn:Hstep; [|done]. simpl. intros Hrun.
    destruct (step_after_stop a e e1 Hstop Hstep) as [Hstop1 Hle].
    destruct (IH e1 Hstop1 Hrun) as [Hstop' Hle']. split; [done|lia].
Qed.

Lemma maxsize_pos : 0 < maxsize.
Proof. unfold maxsize. apply Nat.ltb_lt. by vm_compute. Qed.

(** ** Only variations of the chunks reach the file *)

Lemma step_sound words a e e' :
  engine_sound year depth use_leet use_caps words e → step a e = Some e' → engine_sound year depth use_leet use_caps words e'.
Proof.
  intros (Hfile & Hhand & Hqueue & Hworkers). destruct a as [k| |]; simpl.
  - destruct (workers e !! k) as [w|] eqn:Hk; [|done]. simpl.
    destruct (worker_step year depth use_leet use_caps e w) as [[w' queue]|] eqn:Hw;
      [|done].
    simpl. intros [= <-]. unfold engine_sound. simpl.
    assert (worker_sound year depth use_leet use_caps words w) as Hsound.
    { eapply Forall_lookup_1; [exact Hworkers|exact Hk]. }
    assert (Forall (variation_of year depth use_leet use_caps words) queue ∧ worker_sound year depth use_leet use_caps words w') as [??].
    { destruct w as [chunk|[|p todo] count|p todo count|todo count|count]; simpl in Hw;
        repeat case_match; simplify_eq/=; try done.
      - split; [done|]. apply Forall_forall. intros s Hs.
        exists chunk. split; [done|].
        unfold Wordlister.worker_task in Hs. by apply elem_of_elements in Hs.
      - by apply Forall_cons in Hsound.
      - destruct Hsound as [Hp Htodo]. split; [|done].
        apply Forall_app. split; [done|]. by repeat constructor. }
    split_and!; try done. by apply Forall_insert.
  - unfold writer_step.
    destruct e as [stop cnt queue file wr ws]; simpl in *.
    destruct wr as [|p| |]; [destruct queue as [|p queue]; [destruct stop|]| | |];
      intros [= <-]; unfold engine_sound; simpl in *; split_and!; try done.
    + apply Forall_cons in Hqueue as [??]. by repeat constructor.
    + by apply Forall_cons in Hqueue as [??].
    + apply Forall_app. split; [done|]. done.
  - intros [= <-]. done.
Qed.

Lemma run_sound words schedule e e' :
  engine_sound year depth use_leet use_caps words e → run schedule e = Some e' → engine_sound year depth use_leet use_caps words e'.
Proof.
  revert e. induction schedule as [|a schedule IH]; intros e He; simpl.
  - by intros [= <-].
  - destruct (step a e) as [e1|] eqn:Hstep; [|done]. simpl.
    apply IH. by eapply step_sound.
Qed.

Lemma started_sound words : engine_sound year depth use_leet use_caps words (started words).
Proof.
  unfold engine_sound, started. simpl. split_and!; try done.
  apply Forall_fmap, Forall_forall. by intros chunk Hchunk.
Qed.

(** Under every schedule the file and the queue hold nothing but
    variations generated for one of the chunks of the run. *)
Theorem engine_writes_only_variations (words : list string)
    (schedule : list action) (e : engine) (s : string) :
  run schedule (started words) = Some e →
  s ∈ output_file e ++ result_queue e →
  ∃ chunk, chunk ∈ Wordlister.word_chunks words
           ∧ s ∈ Wordlister.generate_variations chunk year depth use_leet use_caps.
Proof.
  intros Hrun Hs.
  destruct (run_sound words _ _ _ (started_sound words) Hrun)
    as (Hfile & _ & Hqueue & _).
  apply elem_of_app in Hs as [Hs|Hs].
  - by eapply Forall_forall in Hfile.
  - by eapply Forall_forall in Hqueue.
Qed.

(** ** A password counted by its worker and never written *)

Lemma finished_forever later e e' :
  writer_thread e = Finished → run later e = Some e' →
  writer_thread e' = Finished ∧ output_file e' = output_file e.
Proof.
  revert e. induction later as [|a later IH]; intros e Hfin; simpl.
  - by intros [= <-].
  - destruct (step a e) as [e1|] eqn:Hstep; [|done]. simpl. intros Hrun.
    assert (writer_thread e1 = Finished ∧ output_file e1 = output_file e)
      as [Hfin1 Hout1].
    { destruct a as [k| |]; simpl in Hstep.
      - destruct (workers e !! k) as [w|]; [|done]. simpl in Hstep.
        destruct (worker_step _ _ _ _ e w) as [[w' queue]|]; [|done].
        by simplify_eq/=.
      - unfold writer_step in Hstep. by rewrite Hfin in Hstep.
      - by simplify_eq/=. }
    destruct (IH e1 Hfin1 Hrun) as [??]. split; [done|congruence].
Qed.

Lemma word_chunks_head w ws :
  ∃ chunk chunks, Wordlister.word_chunks (w :: ws) = (w :: chunk) :: chunks.
Proof.
  destruct (decide (length (w :: ws) ≤ 3)) as [Hlen|Hlen].
  - exists ws, []. unfold Wordlister.word_chunks. by rewrite decide_True.
  - destruct (word_chunks_first_two (w :: ws)) as [rest ->]; [lia|].
    by eexists _, _.
Qed.

Lemma worker_task_nonempty w chunk :
  Wordlister.worker_task (w :: chunk) year depth use_leet use_caps ≠ [].
Proof.
  unfold Wordlister.worker_task. intros Hempty%elements_empty_inv.
  apply (not_elem_of_empty (C:=gset string) (PyStr.lower w)).
  rewrite <-Hempty.
  apply mutated_bases_generated, mutated_bases_lower. constructor.
Qed.

(** Whenever there is a token, some schedule ends with the writer out of
    its loop, the file empty and the counter at zero, while a password that
    its worker has counted stays in the queue: the worker passed the stop
    test, the stop flag was set, the writer found the queue empty and left,
    and only then did the [put] complete.  Nothing is written afterwards. *)
Theorem engine_can_lose_a_password (words : list string) :
  words ≠ [] →
  ∃ schedule e password,
    run schedule (started words) = Some e
    ∧ writer_thread e = Finished
    ∧ workers e !! 0 = Some (Returned 1)
    ∧ result_queue e = [password]
    ∧ output_file e = [] ∧ get_count e = 0
    ∧ ∀ later e', run later e = Some e' → output_file e' = [].
Proof.
  destruct words as [|w ws]; [done|]. intros _.
  destruct (word_chunks_head w ws) as (chunk & chunks & Hchunks).
  destruct (Wordlister.worker_task (w :: chunk) year depth use_leet use_caps)
    as [|password todo] eqn:Htask; [by apply worker_task_nonempty in Htask|].
  exists [Work 0; Work 0; Stop; Write; Work 0; Work 0; Work 0],
    (Engine true 0 [password] [] Finished (Returned 1 :: (Submitted <$> chunks))),
    password.
  split_and!; try done.
  - unfold started. rewrite Hchunks. simpl. rewrite Htask. simpl.
    by destruct todo.
  - intros later e' Hrun. by apply finished_forever in Hrun as [_ ->].
Qed.

(** ** The schedule that runs the chunks one after the other *)

Lemma run_app s1 s2 e : run (s1 ++ s2) e = run s1 e ≫= run s2.
Proof.
  revert e. induction s1 as [|a s1 IH]; intros e; simpl; [done|].
  destruct (step a e) as [e1|]; simpl; [apply IH|done].
Qed.

Lemma step_work e pre w post w' queue :
  workers e = pre ++ w :: post →
  worker_step year depth use_leet use_caps e w = Some (w', queue) →
  step (Work (length pre)) e
  = Some (Engine (stop_flag e) (counter e) queue (output_file e)
                 (writer_thread e) (pre ++ w' :: post)).
Proof.
  intros Hws Hw. simpl. rewrite Hws, list_lookup_middle by done. simpl.
  rewrite Hw. simpl. do 2 f_equal.
  by rewrite insert_app_r_alt, Nat.sub_diag by done.
Qed.

Lemma run_cons a schedule e : run (a :: schedule) e = step a e ≫= run schedule.
Proof. done. Qed.

Lemma run_password pre password todo count post out :
  run [Work (length pre); Work (length pre); Work (length pre);
       Write; Write; Write]
      (idle out (pre ++ Running (password :: todo) count :: post))
  = Some (idle (out ++ [password]) (pre ++ Running todo (S count) :: post)).
Proof.
  rewrite run_cons.
  erewrite step_work; [|reflexivity|reflexivity]. cbn [mbind option_bind].
  rewrite run_cons.
  erewrite step_work; [|reflexivity|]; last first.
  { cbn [worker_step result_queue length].
    by rewrite decide_True by apply maxsize_pos. }
  cbn [mbind option_bind]. rewrite run_cons.
  erewrite step_work; [|reflexivity|reflexivity].
  cbn [mbind option_bind]. unfold idle. simpl. by rewrite length_app.
Qed.

Lemma run_todo pre todo count post out :
  ∃ schedule,
    run schedule (idle out (pre ++ Running todo count :: post))
    = Some (idle (out ++ todo)
                 (pre ++ Running [] (count + length todo) :: post)).
Proof.
  revert count out. induction todo as [|password todo IH]; intros count out.
  - exists []. simpl. by rewrite app_nil_r, Nat.add_0_r.
  - destruct (IH (S count) (out ++ [password])) as [schedule Hrun].
    exists ([Work (length pre); Work (length pre); Work (length pre);
             Write; Write; Write] ++ schedule).
    rewrite run_app, run_password. simpl. rewrite Hrun.
    by rewrite <-app_assoc, Nat.add_succ_r.
Qed.

Lemma run_chunk pre chunk post out :
  ∃ schedule,
    run schedule (idle out (pre ++ Submitted chunk :: post))
    = Some (idle (out ++ Wordlister.worker_task chunk year depth use_leet use_caps)
                 (pre ++ Returned
                     (length (Wordlister.worker_task chunk year depth use_leet use_caps))
                   :: post)).
Proof.
  destruct (run_todo pre
              (Wordlister.worker_task chunk year depth use_leet use_caps) 0 post out)
    as [schedule Hrun].
  exists (Work (length pre) :: schedule ++ [Work (length pre)]).
  unfold idle in *. rewrite run_cons.
  erewrite step_work; [|reflexivity|reflexivity]. simpl.
  rewrite run_app, Hrun. simpl.
  rewrite list_lookup_middle by done. simpl.
  by rewrite insert_app_r_alt, Nat.sub_diag by done.
Qed.

Lemma run_chunks pre chunks out :
  ∃ schedule,
    run schedule (idle out (pre ++ (Submitted <$> chunks)))
    = Some (idle
        (out ++ (chunk ← chunks;
                 Wordlister.worker_task chunk year depth use_leet use_caps))
        (pre ++ ((λ chunk, Returned
                    (length (Wordlister.worker_task chunk year depth use_leet use_caps)))
                 <$> chunks))).
Proof.
  revert pre out. induction chunks as [|chunk chunks IH]; intros pre out.
  - exists []. simpl. by rewrite !app_nil_r.
  - destruct (run_chunk pre chunk (Submitted <$> chunks) out) as [s1 H1].
    destruct (IH (pre ++ [Returned
                (length (Wordlister.worker_task chunk year depth use_leet use_caps))])
                 (out ++ Wordlister.worker_task chunk year depth use_leet use_caps))
      as [s2 H2].
    exists (s1 ++ s2). rewrite run_app. csimpl. rewrite H1. csimpl.
    rewrite <-app_assoc in H2. csimpl in H2. rewrite H2.
    by rewrite <-!app_assoc.
Qed.

(** Some schedule runs the workers one after the other with the writer
    keeping pace: every thread finishes, the queue ends empty, and the file
    holds, chunk after chunk, the variations of each chunk, all counted. *)
Theorem engine_sequential_run (words : list string) :
  ∃ schedule e,
    run schedule (started words) = Some e
    ∧ all_done e
    ∧ result_queue e = []
    ∧ output_file e
      = lines_written (Wordlister.generate words year depth use_leet use_caps)
    ∧ get_count e = length (output_file e).
Proof.
  destruct (run_chunks [] (Wordlister.word_chunks words) []) as [schedule Hrun].
  exists (schedule ++ [Stop; Write]). eexists. split_and!.
  - rewrite run_app. unfold started. unfold idle in Hrun. simpl in Hrun.
    rewrite Hrun. simpl. reflexivity.
  - split; [done|]. simpl. apply Forall_fmap, Forall_forall.
    intros chunk _. simpl. by eexists.
  - done.
  - done.
  - done.
Qed.

End engine.

(** ** The engine on the single token ab *)
Section engine_examples.
Import Engine.

(** The worker is back from [put] with its one password and has not counted
    it yet, and the writer has written the line and not counted it either:
    both counters are one behind the file. *)
Lemma engine_accounting_witness :
  ∃ e, Engine.run "" 1 false false [Work 0; Work 0; Work 0; Write; Write]
         (started ["ab"]) = Some e
       ∧ workers e = [Queued [] 0]
       ∧ output_file e = ["ab"] ∧ get_count e = 0
       ∧ get_count e ≤ length (output_file e) ≤ get_count e + 1.
Proof.
  eexists. split; [vm_compute; reflexivity|].
  split; [reflexivity|]. split; [reflexivity|]. split; [reflexivity|].
  refine (proj1 (engine_accounting "" 1 false false ["ab"]
                   [Work 0; Work 0; Work 0; Write; Write] _ _)).
  vm_compute. reflexivity.
Defined.

(** Stopped with one password queued and one worker inside [put]: two more
    lines are written, and no more. *)
Lemma engine_after_stop_witness :
  ∃ e', Engine.run "" 1 false false [Write; Write; Work 0; Write; Write; Write]
          (Engine true 0 ["x"] [] Polling [Putting "y" [] 0]) = Some e'
        ∧ output_file e' = ["x"; "y"]
        ∧ stop_flag e' = true
        ∧ length (output_file e')
          ≤ 0 + in_flight (Engine true 0 ["x"] [] Polling [Putting "y" [] 0]).
Proof.
  eexists. split; [vm_compute; reflexivity|]. split; [reflexivity|].
  refine (engine_after_stop "" 1 false false
            [Write; Write; Work 0; Write; Write; Write]
            (Engine true 0 ["x"] [] Polling [Putting "y" [] 0]) _ _ _).
  - reflexivity.
  - vm_compute. reflexivity.
Defined.

Lemma engine_writes_only_variations_witness :
  ∃ chunk, chunk ∈ Wordlister.word_chunks ["ab"]
           ∧ "ab" ∈ Wordlister.generate_variations chunk "" 1 false false.
Proof.
  refine (engine_writes_only_variations "" 1 false false ["ab"]
            [Work 0; Work 0; Work 0; Write; Write] _ "ab" _ _).
  - vm_compute. reflexivity.
  - by_evaluation.
Defined.

Lemma engine_can_lose_a_password_witness :
  ∃ schedule e password,
    Engine.run "" 1 false false schedule (started ["ab"]) = Some e
    ∧ writer_thread e = Finished
    ∧ workers e !! 0 = Some (Returned 1)
    ∧ result_queue e = [password]
    ∧ output_file e = [] ∧ get_count e = 0
    ∧ ∀ later e',
        Engine.run "" 1 false false later e = Some e' → output_file e' = [].
Proof. apply (engine_can_lose_a_password "" 1 false false ["ab"]). done. Defined.

End engine_examples.
